(** * cap-worker: challenge / token lifecycle of the storage Durable Object

    A shallow embedding of [src/index.ts]: the [CapStorageDurableObject]
    class (alarm sweep, [finalizeRedeem], [validateAndConsumeToken]), the
    [hashToken] helper and the [fetch] routes that call them.

    Modelling choices, each kept next to the definition it concerns:
    - the Durable Object's key-value storage is a [gmap string Stored];
    - asynchronous methods are computations of a state-and-exception
      monad [Js] over a [World] (storage, alarm slot, clock, console,
      and the faults the storage back end is going to raise);
    - timestamps ([Date.now()], [expires]) are integers (milliseconds);
    - strings are byte strings (the UTF-8 form of the JavaScript text). *)

From stdpp Require Import base option list strings gmap fin_maps.
From Stdlib Require Import ZArith Lia Ascii.

Local Open Scope string_scope.
Local Open Scope Z_scope.

(** ** Stored values *)

(** [interface Challenge] *)
Module Challenge.
Record params := { c : Z; s : Z; d : Z }.
Record t := { challenge : params; token : string; expires : Z }.
End Challenge.

(** [interface StoredToken] *)
Module StoredToken.
Record t := { expires : Z }.
End StoredToken.

(** What a storage key can hold.  JavaScript's storage is untyped: the
    type argument of [get<T>] is erased, and the code only ever reads the
    [expires] property of what it finds. *)
Inductive Stored :=
| ChallengeRec (ch : Challenge.t)
| TokenRec (tk : StoredToken.t).

Definition expires_of (r : Stored) : Z :=
  match r with
  | ChallengeRec ch => Challenge.expires ch
  | TokenRec tk => StoredToken.expires tk
  end.

Definition ERR_NOT_FOUND : string := "NOT_FOUND".
Definition ERR_EXPIRED : string := "EXPIRED".
Definition CLEANUP_INTERVAL_MS : Z := 60 * 1000.

(** ** Effects *)

(** A thrown JavaScript value: an [Error] carrying a message, or anything
    for which [err instanceof Error] is false. *)
Inductive Thrown :=
| JsError (message : string)
| NotAnError.

Inductive Completion (A : Type) :=
| Returned (a : A)
| Threw (e : Thrown).
Arguments Returned {A} a.
Arguments Threw {A} e.

(** The storage calls the code makes.  A fault plan decides, call by call,
    whether the back end raises instead of performing the call. *)
Inductive StorageOp :=
| OpGet | OpPut | OpDelete | OpList | OpSetAlarm | OpGetAlarm | OpCommit.

Definition Fault : Type := StorageOp → option Thrown.

Record World := mkWorld {
  storage : gmap string Stored;
  alarmTime : option Z;
  clock : Z;
  console : list Thrown;
  faults : list Fault
}.

Definition with_storage (m : gmap string Stored) (w : World) : World :=
  mkWorld m (alarmTime w) (clock w) (console w) (faults w).
Definition with_alarm (a : option Z) (w : World) : World :=
  mkWorld (storage w) a (clock w) (console w) (faults w).
Definition with_clock (t : Z) (w : World) : World :=
  mkWorld (storage w) (alarmTime w) t (console w) (faults w).
Definition with_console (l : list Thrown) (w : World) : World :=
  mkWorld (storage w) (alarmTime w) (clock w) l (faults w).
Definition with_faults (fs : list Fault) (w : World) : World :=
  mkWorld (storage w) (alarmTime w) (clock w) (console w) fs.

(** [async] code: from a world to a completion and the world it leaves. *)
Definition Js (A : Type) : Type := World → Completion A * World.

Definition ret {A} (a : A) : Js A := λ w, (Returned a, w).
Definition throw {A} (e : Thrown) : Js A := λ w, (Threw e, w).
Definition bind {A B} (m : Js A) (k : A → Js B) : Js B :=
  λ w, match m w with
       | (Returned a, w') => k a w'
       | (Threw e, w') => (Threw e, w')
       end.

#[export] Instance Js_ret : MRet Js := @ret.
#[export] Instance Js_bind : MBind Js := λ A B k m, bind m k.

(** [try { body } catch (err) { handler }] *)
Definition try_catch {A} (body : Js A) (handler : Thrown → Js A) : Js A :=
  λ w, match body w with
       | (Returned a, w') => (Returned a, w')
       | (Threw e, w') => handler e w'
       end.

(** A promise that is already settled. *)
Definition settled {A} (r : Completion A) : Js A := λ w, (r, w).

(** [for (const x of xs) { await body(x) }] *)
Fixpoint for_of {A} (xs : list A) (body : A → Js unit) : Js unit :=
  match xs with
  | [] => ret tt
  | x :: rest => body x ;; for_of rest body
  end.


(** Every storage call first asks the fault plan: an exhausted plan means
    the back end works. *)
Definition storage_call (op : StorageOp) : Js unit :=
  λ w, match faults w with
       | [] => (Returned tt, w)
       | f :: fs =>
           match f op with
           | None => (Returned tt, with_faults fs w)
           | Some e => (Threw e, with_faults fs w)
           end
       end.

Definition reads {A} (f : World → A) : Js A := λ w, (Returned (f w), w).
Definition modifies (f : World → World) : Js unit := λ w, (Returned tt, f w).

(** [Date.now()]: the clock of the world.  It stands still while one
    call runs; [serially] below moves it between calls. *)
Definition Date_now : Js Z := reads clock.
Definition console_error (e : Thrown) : Js unit :=
  modifies (λ w, with_console (console w ++ [e]) w).

Definition storage_get (key : string) : Js (option Stored) :=
  storage_call OpGet ;; reads (λ w, storage w !! key).
Definition storage_put (key : string) (v : Stored) : Js unit :=
  storage_call OpPut ;; modifies (λ w, with_storage (<[key := v]> (storage w)) w).
Definition storage_delete (key : string) : Js unit :=
  storage_call OpDelete ;; modifies (λ w, with_storage (delete key (storage w)) w).

(** [storage.list({ prefix })]: the entries whose key starts with
    [prefix].  (The runtime yields them in key order; nothing below
    depends on the order.) *)
Definition has_prefix (p : string) (kv : string * Stored) : Prop :=
  String.prefix p kv.1 = true.
#[export] Instance has_prefix_dec p kv : Decision (has_prefix p kv).
Proof. unfold has_prefix. apply _. Defined.
Definition storage_list (p : string) : Js (list (string * Stored)) :=
  storage_call OpList ;; reads (λ w, map_to_list (filter (has_prefix p) (storage w))).

Definition storage_setAlarm (t : Z) : Js unit :=
  storage_call OpSetAlarm ;; modifies (with_alarm (Some t)).
Definition storage_getAlarm : Js (option Z) :=
  storage_call OpGetAlarm ;; reads alarmTime.

(** [storage.transaction(closure)], the runtime's primitive: the
    operations made on [txn] form one transaction that either commits or
    aborts.  The closure's writes reach the store when the closure returns
    and the commit goes through; when the closure throws (or the commit is
    refused) they are rolled back, and the thrown value is what the caller
    of [transaction] sees. *)
Definition txn_get := storage_get.
Definition txn_put := storage_put.
Definition txn_delete := storage_delete.

Definition transaction {A} (closure : Js A) : Js A :=
  λ w, match closure w with
       | (Returned a, w') =>
           match storage_call OpCommit w' with
           | (Returned _, w'') => (Returned a, w'')
           | (Threw e, w'') => (Threw e, with_storage (storage w) w'')
           end
       | (Threw e, w') => (Threw e, with_storage (storage w) w')
       end.

(** ** The storage Durable Object *)

Definition expired (r : Stored) (now : Z) : bool := expires_of r <? now.

(** [constructor]: arm the first sweep unless one is pending.
    [getAlarm()] answers a time or [null]; [!existingAlarm] holds for
    [null] and for the time [0]. *)
Definition initializing : Js unit :=
  existingAlarm ← storage_getAlarm;
  let arm := now ← Date_now; storage_setAlarm (now + CLEANUP_INTERVAL_MS) in
  match existingAlarm with
  | Some scheduled => if scheduled =? 0 then arm else ret tt
  | None => arm
  end.

Definition sweep (now : Z) (entries : list (string * Stored)) : Js unit :=
  for_of entries (λ kv, if expired kv.2 now then storage_delete kv.1 else ret tt).

Definition alarm : Js unit :=
  try_catch
    (now ← Date_now;
     challenges ← storage_list "challenge:";
     sweep now challenges ;;
     tokens ← storage_list "token:";
     sweep now tokens ;;
     t ← Date_now;
     storage_setAlarm (t + CLEANUP_INTERVAL_MS))
    (λ error,
     console_error error ;;
     t ← Date_now;
     storage_setAlarm (t + CLEANUP_INTERVAL_MS)).

Definition storeChallenge (token : string) (challengeData : Challenge.t) : Js unit :=
  storage_put ("challenge:" +:+ token) (ChallengeRec challengeData).

Definition getChallenge (token : string) : Js (option Stored) :=
  storage_get ("challenge:" +:+ token).

Definition finalizeRedeem (token tokenHash : string) (tokenData : StoredToken.t) : Js unit :=
  transaction
    (existing ← txn_get ("challenge:" +:+ token);
     match existing with
     | None => throw (JsError ERR_NOT_FOUND)
     | Some existing =>
         now ← Date_now;
         if expired existing now then
           txn_delete ("challenge:" +:+ token) ;;
           throw (JsError ERR_EXPIRED)
         else
           txn_delete ("challenge:" +:+ token) ;;
           txn_put ("token:" +:+ tokenHash) (TokenRec tokenData)
     end).

(** [keepToken?: boolean]: [None] is [undefined], which is falsy. *)
Definition validateAndConsumeToken (tokenHash : string) (keepToken : option bool) : Js unit :=
  transaction
    (tokenData ← txn_get ("token:" +:+ tokenHash);
     match tokenData with
     | None => throw (JsError ERR_NOT_FOUND)
     | Some tokenData =>
         now ← Date_now;
         if expired tokenData now then
           txn_delete ("token:" +:+ tokenHash) ;;
           throw (JsError ERR_EXPIRED)
         else if negb (default false keepToken) then
           txn_delete ("token:" +:+ tokenHash)
         else ret tt
     end).


(** ** SHA-256 ([crypto.subtle.digest('SHA-256', data)]), FIPS 180-4.
    Bytes and 32-bit words are integers; additions wrap at [2^32]. *)
Module SHA256.

Definition wrap (x : Z) : Z := x mod 2 ^ 32.
Definition add (x y : Z) : Z := wrap (x + y).
Definition rotr (n x : Z) : Z := Z.lor (Z.shiftr x n) (wrap (Z.shiftl x (32 - n))).
Definition not32 (x : Z) : Z := Z.lxor x 0xffffffff.

Definition Ch (x y z : Z) : Z := Z.lxor (Z.land x y) (Z.land (not32 x) z).
Definition Maj (x y z : Z) : Z :=
  Z.lxor (Z.lxor (Z.land x y) (Z.land x z)) (Z.land y z).
Definition Sigma0 (x : Z) : Z := Z.lxor (Z.lxor (rotr 2 x) (rotr 13 x)) (rotr 22 x).
Definition Sigma1 (x : Z) : Z := Z.lxor (Z.lxor (rotr 6 x) (rotr 11 x)) (rotr 25 x).
Definition sigma0 (x : Z) : Z := Z.lxor (Z.lxor (rotr 7 x) (rotr 18 x)) (Z.shiftr x 3).
Definition sigma1 (x : Z) : Z := Z.lxor (Z.lxor (rotr 17 x) (rotr 19 x)) (Z.shiftr x 10).

(** The round constants are the first 32 bits of the fractional parts of
    the cube roots of the first 64 primes; the initial hash value, of the
    square roots of the first 8. *)
Definition is_prime (n : Z) : bool :=
  forallb (λ d, negb (n mod d =? 0)) (seqZ 2 (n - 2)).
Definition primes : list Z := Eval vm_compute in filter (λ n, is_prime n = true) (seqZ 2 310).

(** The integer cube root of a number below [2^(3 * bits)], bit by bit. *)
Fixpoint cube_root (bits : nat) (n r : Z) : Z :=
  match bits with
  | O => r
  | S b =>
      let r' := r + 2 ^ Z.of_nat b in
      cube_root b n (if r' * r' * r' <=? n then r' else r)
  end.

Definition K : list Z :=
  Eval vm_compute in (λ p, wrap (cube_root 36 (p * 2 ^ 96) 0)) <$> primes.

(** The eight working variables [a .. h]. *)
Record regs := Regs { ra : Z; rb : Z; rc : Z; rd : Z; re : Z; rf : Z; rg : Z; rh : Z }.

Definition H0 : regs :=
  Eval vm_compute in
    let h i := wrap (Z.sqrt (nth i primes 0 * 2 ^ 64)) in
    Regs (h 0%nat) (h 1%nat) (h 2%nat) (h 3%nat) (h 4%nat) (h 5%nat) (h 6%nat) (h 7%nat).

(** Padding: a [0x80] byte, zeros up to 56 modulo 64, then the bit
    length as a 64-bit big-endian number. *)
Fixpoint be_bytes (n : nat) (x : Z) : list Z :=
  match n with
  | O => []
  | S n' => (Z.shiftr x (8 * Z.of_nat n')) mod 256 :: be_bytes n' x
  end.

Definition pad (msg : list Z) : list Z :=
  let len := Z.of_nat (length msg) in
  msg ++ [0x80] ++ replicate (Z.to_nat ((55 - len) mod 64)) 0 ++ be_bytes 8 (8 * len).

Fixpoint be_words (n : nat) (bytes : list Z) : list Z :=
  match n, bytes with
  | S n', b0 :: b1 :: b2 :: b3 :: rest =>
      (b0 * 2 ^ 24 + b1 * 2 ^ 16 + b2 * 2 ^ 8 + b3) :: be_words n' rest
  | _, _ => []
  end.

(** Message schedule, newest word first. *)
Fixpoint extend (n : nat) (w : list Z) : list Z :=
  match n with
  | O => w
  | S n' =>
      let wt := add (add (sigma1 (nth 1 w 0)) (nth 6 w 0))
                    (add (sigma0 (nth 14 w 0)) (nth 15 w 0)) in
      extend n' (wt :: w)
  end.
Definition schedule (block : list Z) : list Z :=
  rev (extend 48 (rev (be_words 16 block))).

Definition round (r : regs) (kw : Z * Z) : regs :=
  let t1 := add (add (add (add (rh r) (Sigma1 (re r))) (Ch (re r) (rf r) (rg r))) kw.1) kw.2 in
  let t2 := add (Sigma0 (ra r)) (Maj (ra r) (rb r) (rc r)) in
  Regs (add t1 t2) (ra r) (rb r) (rc r) (add (rd r) t1) (re r) (rf r) (rg r).

Definition compress (h : regs) (block : list Z) : regs :=
  let r := fold_left round (zip K (schedule block)) h in
  Regs (add (ra h) (ra r)) (add (rb h) (rb r)) (add (rc h) (rc r)) (add (rd h) (rd r))
       (add (re h) (re r)) (add (rf h) (rf r)) (add (rg h) (rg r)) (add (rh h) (rh r)).

Fixpoint blocks (n : nat) (h : regs) (bytes : list Z) : regs :=
  match n with
  | O => h
  | S n' => blocks n' (compress h (take 64 bytes)) (drop 64 bytes)
  end.

Definition digest (msg : list Z) : list Z :=
  let padded := pad msg in
  let h := blocks (length padded / 64)%nat H0 padded in
  be_bytes 4 (ra h) ++ be_bytes 4 (rb h) ++ be_bytes 4 (rc h) ++ be_bytes 4 (rd h) ++
  be_bytes 4 (re h) ++ be_bytes 4 (rf h) ++ be_bytes 4 (rg h) ++ be_bytes 4 (rh h).

End SHA256.

(** ** hashToken *)

(** [s.split(sep)] for a one-character separator: never empty. *)
Fixpoint split (sep : ascii) (s : string) : list string :=
  match s with
  | EmptyString => [EmptyString]
  | String ch rest =>
      if Ascii.eqb ch sep then EmptyString :: split sep rest
      else match split sep rest with
           | [] => [String ch EmptyString]
           | seg :: segs => String ch seg :: segs
           end
  end.

(** [new TextEncoder().encode(s)] *)
Definition encode (s : string) : list Z :=
  (λ ch, Z.of_N (N_of_ascii ch)) <$> String.list_ascii_of_string s.

Definition hex_digit (n : Z) : ascii :=
  nth (Z.to_nat n) (String.list_ascii_of_string "0123456789abcdef") "0"%char.

(** [b.toString(16)] for a byte of a [Uint8Array]. *)
Definition toString16 (b : Z) : string :=
  if b <? 16 then String (hex_digit b) EmptyString
  else String (hex_digit (b / 16)) (String (hex_digit (b mod 16)) EmptyString).

(** [s.padStart(2, '0')] *)
Definition padStart2 (s : string) : string :=
  match String.length s with
  | O => "00"
  | S O => String "0"%char s
  | _ => s
  end.

(** [.map(b => b.toString(16).padStart(2, '0')).join('')] *)
Definition hex (bytes : list Z) : string :=
  String.concat "" ((λ b, padStart2 (toString16 b)) <$> bytes).

(** A string is falsy exactly when it is [undefined] or empty. *)
Definition falsy (s : option string) : bool :=
  match s with
  | None => true
  | Some s => String.eqb s ""
  end.

Definition hashToken (token : string) : Completion string :=
  let parts := split ":"%char token in
  let id := parts !! 0%nat in
  let rawToken := parts !! 1%nat in
  if falsy id || falsy rawToken then Threw (JsError "Invalid token format")
  else
    let data := encode (default "" rawToken) in
    let hashBuffer := SHA256.digest data in
    let hash := hex hashBuffer in
    Returned (default "" id +:+ ":" +:+ hash).

(** ** The Worker: requests, responses and routes *)

(** The document [JSON.stringify] serialises. *)
#[warnings="-register-all"]
Inductive Json :=
| JBool (b : bool)
| JNum (n : Z)
| JStr (s : string)
| JObj (fields : list (string * Json)).

Inductive Body :=
| NoBody
| Text (s : string)
| JsonText (j : Json).

Record Response := mkResponse {
  status : Z;
  headers : list (string * string);
  body : Body
}.

Definition API_BASE : string := "/api".
Definition CHALLENGE_PATH : string := API_BASE +:+ "/challenge".
Definition REDEEM_PATH : string := API_BASE +:+ "/redeem".
Definition VALIDATE_PATH : string := API_BASE +:+ "/validate".
Definition CORS_HEADERS : list (string * string) :=
  [ ("Access-Control-Allow-Origin", "*");
    ("Access-Control-Allow-Methods", "GET, POST, OPTIONS");
    ("Access-Control-Allow-Headers", "Content-Type") ].

Definition json_headers : list (string * string) :=
  ("Content-Type", "application/json") :: CORS_HEADERS.

(** [new Response(JSON.stringify({ success: false, error }), { status, headers })] *)
Definition failure (st : Z) (error : string) : Response :=
  mkResponse st json_headers (JsonText (JObj [("success", JBool false); ("error", JStr error)])).

(** The request as the handler sees it: [json] is [None] when
    [request.json()] rejects; otherwise the properties the handler reads,
    typed as the source declares them (an absent property is [None]). *)
Record BodyFields := mkBody {
  b_token : option string;
  b_solutions : option (list Z);
  b_keepToken : option bool
}.

Record Request := mkRequest {
  method : string;
  pathname : string;
  json : option BodyFields
}.

(** What the Cap library hands back. *)
Record CreatedChallenge := {
  cc_challenge : Challenge.params;
  cc_token : option string;
  cc_expires : Z
}.

Record RedeemResult := {
  success : bool;
  message : option string;
  r_token : option string;
  r_expires : option Z
}.

Definition optional_field (name : string) (v : option Json) : list (string * Json) :=
  match v with
  | Some j => [(name, j)]
  | None => []
  end.

Definition json_of_params (p : Challenge.params) : Json :=
  JObj [("c", JNum (Challenge.c p)); ("s", JNum (Challenge.s p)); ("d", JNum (Challenge.d p))].

Definition json_of_challenge (ch : CreatedChallenge) : Json :=
  JObj ([("challenge", json_of_params (cc_challenge ch))] ++
        optional_field "token" (JStr <$> cc_token ch) ++
        [("expires", JNum (cc_expires ch))]).

Definition json_of_result (r : RedeemResult) : Json :=
  JObj ([("success", JBool (success r))] ++
        optional_field "message" (JStr <$> message r) ++
        optional_field "token" (JStr <$> r_token r) ++
        optional_field "expires" (JNum <$> r_expires r)).

(** A number is falsy exactly when it is [undefined] or zero. *)
Definition falsy_num (n : option Z) : bool :=
  match n with
  | None => true
  | Some n => n =? 0
  end.

Section Worker.

(** The proof-of-work collaborator ([@cap.js/server]), at its boundary:
    what [createChallenge] and [redeemChallenge] answer when called at a
    given time.  [redeemChallenge] is handed the stored object as is. *)
Variable cap_createChallenge : Z → CreatedChallenge.
Variable cap_redeemChallenge : Z → Stored → list Z → RedeemResult.

(** What the other requests do to the world while this one is suspended
    between its existence check and its transaction. *)
Variable meanwhile : World → World.

Definition createChallenge : Js CreatedChallenge :=
  now ← Date_now; ret (cap_createChallenge now).

Definition verifyChallengeSolution (challenge : Stored) (solutions : list Z) : Js RedeemResult :=
  now ← Date_now; ret (cap_redeemChallenge now challenge solutions).

Definition challenge_route : Js Response :=
  challenge ← createChallenge;
  (if falsy (cc_token challenge) then ret tt
   else storeChallenge (default "" (cc_token challenge))
          (Challenge.Build_t (cc_challenge challenge) (default "" (cc_token challenge))
             (cc_expires challenge))) ;;
  ret (mkResponse 200 json_headers (JsonText (json_of_challenge challenge))).

(** The [catch] block of the redeem route. *)
Definition redeem_catch (err : Thrown) : Response :=
  match err with
  | JsError msg =>
      if String.eqb msg ERR_EXPIRED then failure 410 "Challenge expired"
      else failure 409 "Challenge already redeemed"
  | NotAnError => failure 409 "Challenge already redeemed"
  end.

Definition redeem_route (request : Request) : Js Response :=
  match json request with
  | None => ret (failure 400 "Invalid request body")
  | Some body =>
      match b_solutions body with
      | Some solutions =>
          if falsy (b_token body) then ret (failure 400 "Missing token or solutions")
          else
            let token := default "" (b_token body) in
            challenge ← getChallenge token;
            match challenge with
            | None => ret (failure 404 "Challenge not found")
            | Some challenge =>
                modifies meanwhile ;;
                result ← verifyChallengeSolution challenge solutions;
                if success result && negb (falsy (r_token result))
                   && negb (falsy_num (r_expires result)) then
                  tokenHash ← settled (hashToken (default "" (r_token result)));
                  try_catch
                    (finalizeRedeem token tokenHash
                       (StoredToken.Build_t (default 0 (r_expires result))) ;;
                     ret (mkResponse 200 json_headers (JsonText (json_of_result result))))
                    (λ err, ret (redeem_catch err))
                else ret (mkResponse 200 json_headers (JsonText (json_of_result result)))
            end
      | None => ret (failure 400 "Missing token or solutions")
      end
  end.

(** The [catch] block of the validate route. *)
Definition validate_catch (err : Thrown) : Response :=
  match err with
  | JsError msg =>
      if String.eqb msg ERR_NOT_FOUND then failure 404 "Token not found"
      else if String.eqb msg ERR_EXPIRED then failure 410 "Token expired"
      else failure 409 "Token already consumed"
  | NotAnError => failure 409 "Token already consumed"
  end.

Definition validate_route (request : Request) : Js Response :=
  match json request with
  | None => ret (failure 400 "Invalid request body")
  | Some body =>
      if falsy (b_token body) then ret (failure 400 "Missing token")
      else
        tokenHash ← settled (hashToken (default "" (b_token body)));
        try_catch
          (validateAndConsumeToken tokenHash (b_keepToken body) ;;
           ret (mkResponse 200 json_headers (JsonText (JObj [("success", JBool true)]))))
          (λ err, ret (validate_catch err))
  end.

Definition fetch (request : Request) : Js Response :=
  if String.eqb (method request) "OPTIONS" then ret (mkResponse 200 CORS_HEADERS NoBody)
  else if String.eqb (method request) "POST" && String.eqb (pathname request) CHALLENGE_PATH
  then challenge_route
  else if String.eqb (method request) "POST" && String.eqb (pathname request) REDEEM_PATH
  then redeem_route request
  else if String.eqb (method request) "POST" && String.eqb (pathname request) VALIDATE_PATH
  then validate_route request
  else ret (mkResponse 404 CORS_HEADERS (Text "Not Found")).

End Worker.

(** ** Running several requests one after the other *)

(** A serialization of calls: each one runs to completion at its own
    time, in the world the previous one left. *)
Fixpoint serially {A} (calls : list (Z * Js A)) (w : World) : list (Completion A) * World :=
  match calls with
  | [] => ([], w)
  | (t, call) :: rest =>
      let '(r, w') := call (with_clock t w) in
      let '(rs, w'') := serially rest w' in
      (r :: rs, w'')
  end.

(** * Vocabulary of the properties, and sample data *)

(** ** Worlds and keys *)

(** A quiet world: the storage back end raises nothing. *)
Definition quiet (w : World) : Prop := faults w = [].

Definition challenge_key (token : string) : string := "challenge:" +:+ token.
Definition token_key (tokenHash : string) : string := "token:" +:+ tokenHash.

(** Unfolding the monad and the primitive effects down to functions on
    worlds. *)
Create HintDb js.
#[local] Hint Unfold mbind Js_bind bind mret Js_ret ret throw try_catch settled
  reads modifies txn_get txn_put txn_delete storage_get storage_put
  storage_delete storage_list storage_setAlarm storage_getAlarm
  Date_now console_error storage_call : js.
Ltac js_unfold := repeat autounfold with js in *.

(** ** Requests and responses *)

Definition validate_request (token : string) (keepToken : option bool) : Request :=
  mkRequest "POST" VALIDATE_PATH (Some (mkBody (Some token) None keepToken)).

Definition redeem_request (token : string) (solutions : list Z) : Request :=
  mkRequest "POST" REDEEM_PATH (Some (mkBody (Some token) (Some solutions) None)).

(** [{ success: true }], status 200. *)
Definition success_response : Response :=
  mkResponse 200 json_headers (JsonText (JObj [("success", JBool true)])).

(** ** Segments of a token, and hexadecimal text *)

(** The text before the first [':'] (all of it when there is none), and
    the text after the first [':'] (when there is one). *)
Fixpoint before_colon (s : string) : string :=
  match s with
  | EmptyString => EmptyString
  | String ch rest => if Ascii.eqb ch ":" then EmptyString else String ch (before_colon rest)
  end.

Fixpoint after_colon (s : string) : option string :=
  match s with
  | EmptyString => None
  | String ch rest => if Ascii.eqb ch ":" then Some rest else after_colon rest
  end.

(** The two segments of a token: before the first [':'], and between the
    first [':'] and the second (or the end of the text). *)
Definition first_segment (token : string) : string := before_colon token.
Definition second_segment (token : string) : option string := before_colon <$> after_colon token.

Definition is_byte (b : Z) : Prop := 0 ≤ b < 256.

Definition lower_hex_digit (ch : ascii) : bool :=
  bool_decide (ch ∈ String.list_ascii_of_string "0123456789abcdef").

Definition hex_value (ch : ascii) : option Z :=
  Z.of_nat <$> list_find (λ d, d = ch) (String.list_ascii_of_string "0123456789abcdef") ≫= Some ∘ fst.

(** Reading back two digits per byte, most significant first. *)
Fixpoint unhex (s : string) : option (list Z) :=
  match s with
  | EmptyString => Some []
  | String hi (String lo rest) =>
      h ← hex_value hi; l ← hex_value lo; bytes ← unhex rest; Some ((16 * h + l) :: bytes)
  | String _ EmptyString => None
  end.

(** ** The sweep *)

(** A record the sweep is after: a challenge or token record whose
    [expires] is before [now]. *)
Definition sweepable (now : Z) (kv : string * Stored) : Prop :=
  (has_prefix "challenge:" kv ∨ has_prefix "token:" kv) ∧ expires_of kv.2 < now.

#[export] Instance sweepable_dec now kv : Decision (sweepable now kv).
Proof. unfold sweepable. apply _. Defined.

(** One turn of the loop of [alarm], on the store alone. *)
Definition sweep_step (now : Z) (m : gmap string Stored) (kv : string * Stored) :
    gmap string Stored :=
  if expired kv.2 now then delete kv.1 m else m.

(** Triples for [Js]: from a world satisfying [P], the computation either
    returns [a] in a world satisfying [Q a] or throws [e] in a world
    satisfying [E e]. *)
Definition triple {A} (P : World → Prop) (m : Js A)
    (Q : A → World → Prop) (E : Thrown → World → Prop) : Prop :=
  ∀ w, P w → match m w with
             | (Returned a, w') => Q a w'
             | (Threw e, w') => E e w'
             end.

(** What a tick has made of the world [w0] it started in: the clock has
    not moved, no record has appeared or changed, only sweepable records
    have gone, and [setAlarm] is still not going to be refused. *)
Definition tidy (w0 w : World) : Prop :=
  clock w = clock w0 ∧
  (∀ k v, storage w !! k = Some v → storage w0 !! k = Some v) ∧
  (∀ k v, storage w0 !! k = Some v → storage w !! k = None → sweepable (clock w0) (k, v)) ∧
  Forall (λ f : Fault, f OpSetAlarm = None) (faults w).

(** ** Sample data *)

Definition sample_challenge : Challenge.t :=
  Challenge.Build_t (Challenge.Build_params 50 32 4) "a" 5.
Definition sample_token : StoredToken.t := StoredToken.Build_t 5.
Definition fresh_token : StoredToken.t := StoredToken.Build_t 99.

(** One challenge and one token, both expiring at time 5. *)
Definition sample_storage : gmap string Stored :=
  <["challenge:a" := ChallengeRec sample_challenge]>
    (<["token:a:h" := TokenRec sample_token]> ∅).

(** The same store seen before (3), at (5) and after (10) the expiry. *)
Definition early_world : World := mkWorld sample_storage None 3 [] [].
Definition boundary_world : World := mkWorld sample_storage None 5 [] [].
Definition late_world : World := mkWorld sample_storage None 10 [] [].

Definition sample_createChallenge (now : Z) : CreatedChallenge :=
  Build_CreatedChallenge (Challenge.Build_params 50 32 4) (Some "a") (now + 2).

(** A collaborator that accepts every solution and issues the token
    ["id:s"], good until time 99. *)
Definition sample_redeemChallenge (now : Z) (challenge : Stored) (solutions : list Z) : RedeemResult :=
  Build_RedeemResult true None (Some "id:s") (Some 99).

(** What [hashToken] makes of ["id:s"]. *)
Definition sample_hash : string :=
  "id:043a718774c572bd8a25adbeb1bfcd5c0256ae11cecf9f9c3f925d0e52beaf89".

(** The token ["id:s"] has been issued, good until time 50. *)
Definition issued_world : World :=
  mkWorld (<[token_key sample_hash := TokenRec (StoredToken.Build_t 50)]> ∅) None 10 [] [].

(** Two records that expired at 5 and one token good until 50, at time 10. *)
Definition mixed_world : World :=
  mkWorld (<[token_key sample_hash := TokenRec (StoredToken.Build_t 50)]> sample_storage)
    None 10 [] [].

(** A rival request that redeems challenge ["a"] while this one is
    suspended between its check and its transaction. *)
Definition rival (w : World) : World :=
  (finalizeRedeem "a" "rival:hash" fresh_token w).2.

(** A back end whose listing works and whose first deletion fails. *)
Definition refuses_delete : Fault :=
  λ op, match op with
        | OpDelete => Some (JsError "storage unavailable")
        | _ => None
        end.
Definition flaky_world : World :=
  mkWorld sample_storage None 10 [] [(λ _, None); refuses_delete].

(** ** The shape of the store *)

(** Challenge records sit under ["challenge:"] keys and token records
    under ["token:"] keys. *)
Definition well_keyed (m : gmap string Stored) : Prop :=
  ∀ k v, m !! k = Some v →
    match v with
    | ChallengeRec _ => has_prefix "challenge:" (k, v)
    | TokenRec _ => has_prefix "token:" (k, v)
    end.

(** A computation that keeps the store well keyed, however it ends. *)
Definition keeps_shape {A} (m : Js A) : Prop :=
  triple (λ w, well_keyed (storage w)) m
    (λ _ w, well_keyed (storage w)) (λ _ w, well_keyed (storage w)).

(** A [POST] to one of the three paths of the API. *)
Definition api_call (request : Request) : bool :=
  String.eqb (method request) "POST" &&
  (String.eqb (pathname request) CHALLENGE_PATH ||
   String.eqb (pathname request) REDEEM_PATH ||
   String.eqb (pathname request) VALIDATE_PATH).

(** What every answer of the Worker has: the CORS headers, and one of
    five statuses. *)
Definition well_formed_response (response : Response) : Prop :=
  CORS_HEADERS ⊆ headers response ∧ status response ∈ [200; 400; 404; 409; 410].

(** Verification succeeded and issued a token: the test the redeem route
    makes on the collaborator's answer. *)
Definition issues_token (result : RedeemResult) : bool :=
  success result && negb (falsy (r_token result)) && negb (falsy_num (r_expires result)).

(** A store with an alarm already armed, and one armed at the epoch. *)
Definition armed_world : World := mkWorld sample_storage (Some 777) 10 [] [].
Definition epoch_world : World := mkWorld sample_storage (Some 0) 10 [] [].

(** A collaborator that rejects every solution. *)
Definition rejecting_redeemChallenge (now : Z) (challenge : Stored) (solutions : list Z) :
    RedeemResult :=
  Build_RedeemResult false (Some "Invalid solution") None None.

(** A back end that refuses everything but [setAlarm]. *)
Definition only_setAlarm_works : Fault :=
  λ op, match op with
        | OpSetAlarm => None
        | _ => Some (JsError "storage unavailable")
        end.

(** * Properties *)

(** ** Worlds *)

Lemma with_storage_same w : with_storage (storage w) w = w.
Proof. by destruct w. Qed.

Lemma with_storage_twice m m' w : with_storage m (with_storage m' w) = with_storage m w.
Proof. by destruct w. Qed.

Lemma storage_call_quiet op w : quiet w → storage_call op w = (Returned tt, w).
Proof. unfold quiet, storage_call. by intros ->. Qed.

(** A storage call that faults or not leaves everything but the plan. *)
Lemma storage_call_frame op w :
  ∃ r fs, storage_call op w = (r, with_faults fs w) ∧ fs `suffix_of` faults w.
Proof.
  unfold storage_call. destruct w as [st al cl co [|f fs]]; simpl.
  - by exists (Returned tt), [].
  - destruct (f op); eexists _, fs; (split; [done | by apply suffix_cons_r]).
Qed.

(** ** Transactions *)

Lemma transaction_threw {A} (closure : Js A) w e w' :
  transaction closure w = (Threw e, w') → storage w' = storage w.
Proof.
  unfold transaction. destruct (closure w) as [[a|e1] w1].
  - destruct (storage_call OpCommit w1) as [[u|e2] w2]; intros [= <- <-]. by destruct w2.
  - intros [= <- <-]. by destruct w1.
Qed.

Lemma transaction_returned {A} (closure : Js A) w a w' :
  transaction closure w = (Returned a, w') →
  ∃ w1, closure w = (Returned a, w1) ∧ storage w' = storage w1.
Proof.
  unfold transaction. destruct (closure w) as [[a1|e1] w1]; [|done].
  destruct (storage_call_frame OpCommit w1) as (r & fs & -> & _).
  destruct r; intros [= <- <-]. exists w1. by destruct w1.
Qed.

(** ** [finalizeRedeem] and [validateAndConsumeToken] on a quiet store *)

Lemma finalizeRedeem_quiet token tokenHash tokenData w :
  quiet w →
  finalizeRedeem token tokenHash tokenData w =
    match storage w !! challenge_key token with
    | None => (Threw (JsError ERR_NOT_FOUND), w)
    | Some r =>
        if expired r (clock w) then (Threw (JsError ERR_EXPIRED), w)
        else (Returned tt,
              with_storage (<[token_key tokenHash := TokenRec tokenData]>
                              (delete (challenge_key token) (storage w))) w)
    end.
Proof.
  destruct w as [st al cl co fs]. unfold quiet; simpl; intros ->.
  unfold finalizeRedeem, transaction, challenge_key, token_key; js_unfold; cbn.
  destruct (st !! _) as [r|]; cbn; [|done].
  by destruct (expired r cl).
Qed.

Lemma validateAndConsumeToken_quiet tokenHash keepToken w :
  quiet w →
  validateAndConsumeToken tokenHash keepToken w =
    match storage w !! token_key tokenHash with
    | None => (Threw (JsError ERR_NOT_FOUND), w)
    | Some r =>
        if expired r (clock w) then (Threw (JsError ERR_EXPIRED), w)
        else if default false keepToken then (Returned tt, w)
        else (Returned tt, with_storage (delete (token_key tokenHash) (storage w)) w)
    end.
Proof.
  destruct w as [st al cl co fs]. unfold quiet; simpl; intros ->.
  unfold validateAndConsumeToken, transaction, token_key; js_unfold; cbn.
  destruct (st !! _) as [r|]; cbn; [|done].
  destruct (expired r cl); [done|].
  by destruct (default false keepToken).
Qed.

Lemma challenge_key_not_token_key token tokenHash : challenge_key token ≠ token_key tokenHash.
Proof. done. Qed.

(** What the closure of [finalizeRedeem] has done when it returns,
    whatever the back end raised along the way. *)
Lemma finalizeRedeem_returned token tokenHash tokenData w w' :
  finalizeRedeem token tokenHash tokenData w = (Returned tt, w') →
  (∃ r, storage w !! challenge_key token = Some r ∧ clock w ≤ expires_of r) ∧
  storage w' = <[token_key tokenHash := TokenRec tokenData]>
                 (delete (challenge_key token) (storage w)).
Proof.
  intros (w1 & Hrun & ->)%transaction_returned. revert Hrun.
  destruct w as [st al cl co fs]. unfold challenge_key, token_key, expired.
  js_unfold; cbn.
  repeat (case_match; simplify_eq/=); try done.
  all: intros [= <-]; cbn; split; [eexists; split; [done|lia] | done].
Qed.

Lemma validateAndConsumeToken_returned tokenHash keepToken w w' :
  validateAndConsumeToken tokenHash keepToken w = (Returned tt, w') →
  (∃ r, storage w !! token_key tokenHash = Some r ∧ clock w ≤ expires_of r) ∧
  storage w' = if default false keepToken then storage w
               else delete (token_key tokenHash) (storage w).
Proof.
  intros (w1 & Hrun & ->)%transaction_returned. revert Hrun.
  destruct w as [st al cl co fs]. unfold token_key, expired.
  js_unfold; cbn.
  repeat (case_match; simplify_eq/=); try done.
  all: intros [= <-]; cbn; split; [eexists; split; [done|lia] | done].
Qed.

(** ** No partial state *)

(** C1. A call of [finalizeRedeem] or [validateAndConsumeToken] that fails
    (with NOT_FOUND, EXPIRED or anything the back end raised) leaves the
    whole record set as it was just before the call. *)
Theorem failed_call_leaves_records_unchanged (w w' : World) (e : Thrown) :
  (∀ token tokenHash tokenData,
     finalizeRedeem token tokenHash tokenData w = (Threw e, w') → storage w' = storage w) ∧
  (∀ tokenHash keepToken,
     validateAndConsumeToken tokenHash keepToken w = (Threw e, w') → storage w' = storage w).
Proof. split; intros; by eapply transaction_threw. Qed.

Lemma failed_call_leaves_records_unchanged_witness :
  (finalizeRedeem "a" "a:h" fresh_token late_world).1 = Threw (JsError ERR_EXPIRED) ∧
  storage (finalizeRedeem "a" "a:h" fresh_token late_world).2 = storage late_world ∧
  (validateAndConsumeToken "zz" None late_world).1 = Threw (JsError ERR_NOT_FOUND) ∧
  storage (validateAndConsumeToken "zz" None late_world).2 = storage late_world.
Proof.
  split; [vm_compute; reflexivity|].
  split.
  - apply (proj1 (failed_call_leaves_records_unchanged late_world
                    (finalizeRedeem "a" "a:h" fresh_token late_world).2
                    (JsError ERR_EXPIRED)) "a" "a:h" fresh_token).
    vm_compute; reflexivity.
  - split; [vm_compute; reflexivity|].
    apply (proj2 (failed_call_leaves_records_unchanged late_world
                    (validateAndConsumeToken "zz" None late_world).2
                    (JsError ERR_NOT_FOUND)) "zz" None).
    vm_compute; reflexivity.
Defined.

(** ** FinalizeRedeem *)

(** C3. [finalizeRedeem] signals NOT_FOUND when no challenge record has
    the id; when the record is there and unexpired it succeeds, and the
    store it leaves has lost the challenge record and gained the token
    record under the given hash with the given expiry; the two changes
    are one atomic unit: whatever the back end raises, the store ends up
    with both or with neither. *)
Theorem finalizeRedeem_not_found_or_commits token tokenHash tokenData (w : World) :
  (quiet w → storage w !! challenge_key token = None →
     finalizeRedeem token tokenHash tokenData w = (Threw (JsError ERR_NOT_FOUND), w)) ∧
  (quiet w → ∀ r, storage w !! challenge_key token = Some r → clock w ≤ expires_of r →
     ∃ w', finalizeRedeem token tokenHash tokenData w = (Returned tt, w') ∧
           storage w' = <[token_key tokenHash := TokenRec tokenData]>
                          (delete (challenge_key token) (storage w)) ∧
           storage w' !! challenge_key token = None ∧
           storage w' !! token_key tokenHash = Some (TokenRec tokenData)) ∧
  (∀ res w', finalizeRedeem token tokenHash tokenData w = (res, w') →
     storage w' = storage w ∨
     storage w' = <[token_key tokenHash := TokenRec tokenData]>
                    (delete (challenge_key token) (storage w))).
Proof.
  split; [|split].
  - intros Hq Hnone. by rewrite finalizeRedeem_quiet, Hnone.
  - intros Hq r Hr Hle. rewrite finalizeRedeem_quiet, Hr by done.
    unfold expired. destruct (Z.ltb_spec (expires_of r) (clock w)); [lia|].
    eexists; split; [done|]. destruct w; cbn. split; [done|]. split.
    + rewrite lookup_insert_ne by (symmetry; apply challenge_key_not_token_key).
      apply lookup_delete_eq.
    + apply lookup_insert_eq.
  - intros [[]|e] w' Hrun.
    + right. by apply finalizeRedeem_returned in Hrun as [_ ?].
    + left. by eapply transaction_threw.
Qed.

Lemma finalizeRedeem_not_found_or_commits_witness :
  finalizeRedeem "b" "a:h2" fresh_token early_world = (Threw (JsError ERR_NOT_FOUND), early_world) ∧
  ∃ w', finalizeRedeem "a" "a:h2" fresh_token early_world = (Returned tt, w') ∧
        storage w' = <[token_key "a:h2" := TokenRec fresh_token]>
                       (delete (challenge_key "a") (storage early_world)) ∧
        storage w' !! challenge_key "a" = None ∧
        storage w' !! token_key "a:h2" = Some (TokenRec fresh_token).
Proof.
  split.
  - apply (proj1 (finalizeRedeem_not_found_or_commits "b" "a:h2" fresh_token early_world));
      reflexivity.
  - apply (proj1 (proj2 (finalizeRedeem_not_found_or_commits "a" "a:h2" fresh_token early_world))
             eq_refl (ChallengeRec sample_challenge)).
    + reflexivity.
    + simpl. lia.
Defined.

(** ** Expiry *)


(** C4. At time 10 the sample store holds a challenge and a token that
    expired at time 5.  Both calls signal EXPIRED, and both records are
    still in the store when the calls have returned. *)
Theorem expired_records_survive_the_failed_call :
  (storage late_world !! "challenge:a" = Some (ChallengeRec sample_challenge) ∧
   finalizeRedeem "a" "a:h2" fresh_token late_world = (Threw (JsError ERR_EXPIRED), late_world) ∧
   storage (finalizeRedeem "a" "a:h2" fresh_token late_world).2 !! "challenge:a"
     = Some (ChallengeRec sample_challenge)) ∧
  (storage late_world !! "token:a:h" = Some (TokenRec sample_token) ∧
   validateAndConsumeToken "a:h" None late_world = (Threw (JsError ERR_EXPIRED), late_world) ∧
   storage (validateAndConsumeToken "a:h" None late_world).2 !! "token:a:h"
     = Some (TokenRec sample_token)).
Proof. repeat split; vm_compute; reflexivity. Qed.

(** C5, as stated, at the instant [now = expiresAt]: the claim has both
    calls signal EXPIRED there; they succeed (the challenge is redeemed,
    the token consumed). *)
Lemma expiry_instant_is_still_valid :
  clock boundary_world = expires_of (ChallengeRec sample_challenge) ∧
  clock boundary_world = expires_of (TokenRec sample_token) ∧
  storage boundary_world !! "challenge:a" = Some (ChallengeRec sample_challenge) ∧
  storage boundary_world !! "token:a:h" = Some (TokenRec sample_token) ∧
  (finalizeRedeem "a" "a:h2" fresh_token boundary_world).1 = Returned tt ∧
  (finalizeRedeem "a" "a:h2" fresh_token boundary_world).1 ≠ Threw (JsError ERR_EXPIRED) ∧
  (validateAndConsumeToken "a:h" None boundary_world).1 = Returned tt ∧
  (validateAndConsumeToken "a:h" None boundary_world).1 ≠ Threw (JsError ERR_EXPIRED).
Proof. repeat split; vm_compute; (reflexivity || discriminate). Qed.

(** C5, amended.  A record counts as valid while [now <= expiresAt]:
    - whatever the back end does, a call that succeeds found its record
      in the store with [now <= expiresAt] (swept or not, a record whose
      [expiresAt] is before now is never accepted);
    - on a quiet store, a call that finds its record succeeds when
      [now <= expiresAt] and signals EXPIRED when [expiresAt < now]. *)
Theorem valid_while_not_after_expiry (w : World) :
  (∀ token tokenHash tokenData w',
     finalizeRedeem token tokenHash tokenData w = (Returned tt, w') →
     ∃ r, storage w !! challenge_key token = Some r ∧ clock w ≤ expires_of r) ∧
  (∀ tokenHash keepToken w',
     validateAndConsumeToken tokenHash keepToken w = (Returned tt, w') →
     ∃ r, storage w !! token_key tokenHash = Some r ∧ clock w ≤ expires_of r) ∧
  (quiet w → ∀ token tokenHash tokenData r,
     storage w !! challenge_key token = Some r →
     (finalizeRedeem token tokenHash tokenData w).1 =
       if bool_decide (clock w ≤ expires_of r) then Returned tt
       else Threw (JsError ERR_EXPIRED)) ∧
  (quiet w → ∀ tokenHash keepToken r,
     storage w !! token_key tokenHash = Some r →
     (validateAndConsumeToken tokenHash keepToken w).1 =
       if bool_decide (clock w ≤ expires_of r) then Returned tt
       else Threw (JsError ERR_EXPIRED)).
Proof.
  split; [|split; [|split]].
  - intros * Hrun. by apply finalizeRedeem_returned in Hrun as [? _].
  - intros * Hrun. by apply validateAndConsumeToken_returned in Hrun as [? _].
  - intros Hq * Hr. rewrite finalizeRedeem_quiet, Hr by done. unfold expired.
    case_bool_decide; destruct (Z.ltb_spec (expires_of r) (clock w)); (done || lia).
  - intros Hq * Hr. rewrite validateAndConsumeToken_quiet, Hr by done. unfold expired.
    case_bool_decide; destruct (Z.ltb_spec (expires_of r) (clock w)); try (done || lia).
    by destruct (default false keepToken).
Qed.

Lemma valid_while_not_after_expiry_witness :
  (∃ r, storage boundary_world !! challenge_key "a" = Some r ∧
        clock boundary_world ≤ expires_of r) ∧
  (finalizeRedeem "a" "a:h2" fresh_token late_world).1 = Threw (JsError ERR_EXPIRED) ∧
  (validateAndConsumeToken "a:h" (Some true) boundary_world).1 = Returned tt.
Proof.
  split; [|split].
  - apply (proj1 (valid_while_not_after_expiry boundary_world) "a" "a:h2" fresh_token
             (finalizeRedeem "a" "a:h2" fresh_token boundary_world).2).
    vm_compute; reflexivity.
  - apply (proj1 (proj2 (proj2 (valid_while_not_after_expiry late_world))) eq_refl
             "a" "a:h2" fresh_token (ChallengeRec sample_challenge)).
    reflexivity.
  - apply (proj2 (proj2 (proj2 (valid_while_not_after_expiry boundary_world))) eq_refl
             "a:h" (Some true) (TokenRec sample_token)).
    reflexivity.
Defined.

(** ** Serial runs *)

(** A call that, in every world of a family closed under moving the
    clock, completes the same way and stays in the family, completes that
    way every time it is run. *)
Lemma serially_constant {A} (P : World → Prop) (call : Js A) (a : Completion A)
    (times : list Z) :
  (∀ t w, t ∈ times → P w →
     ∃ w', call (with_clock t w) = (a, w') ∧ P w') →
  ∀ w, P w →
    (serially ((λ t, (t, call)) <$> times) w).1 = (λ _, a) <$> times ∧
    P (serially ((λ t, (t, call)) <$> times) w).2.
Proof.
  induction times as [|t times IH]; intros Hcall w HP; [done|].
  destruct (Hcall t w) as (w' & Hrun & HP'); [by left|done|].
  destruct (IH (λ t' w0 Ht', Hcall t' w0 (list_elem_of_further _ _ _ Ht')) w' HP') as [IH1 IH2].
  cbn. rewrite Hrun.
  destruct (serially ((λ t0, (t0, call)) <$> times) w') as [rs w'']; cbn in *.
  by rewrite IH1.
Qed.

(** ** The validate and redeem routes *)

Lemma hashToken_returned_nonempty token tokenHash :
  hashToken token = Returned tokenHash → falsy (Some token) = false.
Proof. by destruct token. Qed.

Section Routes.

Variable cap_createChallenge : Z → CreatedChallenge.
Variable cap_redeemChallenge : Z → Stored → list Z → RedeemResult.
Variable meanwhile : World → World.

#[local] Abbreviation fetch := (fetch cap_createChallenge cap_redeemChallenge meanwhile).

Lemma fetch_validate request :
  method request = "POST" → pathname request = VALIDATE_PATH →
  fetch request = validate_route request.
Proof. intros Hm Hp. unfold fetch. by rewrite Hm, Hp. Qed.

Lemma fetch_redeem request :
  method request = "POST" → pathname request = REDEEM_PATH →
  fetch request =
    redeem_route cap_redeemChallenge meanwhile request.
Proof. intros Hm Hp. unfold fetch. by rewrite Hm, Hp. Qed.

(** Once the token has been hashed, the route answers with what the
    store call did, mapped by the [catch] block. *)
Lemma validate_route_hashed token tokenHash keepToken w :
  hashToken token = Returned tokenHash →
  fetch (validate_request token keepToken) w =
    match validateAndConsumeToken tokenHash keepToken w with
    | (Returned _, w') => (Returned success_response, w')
    | (Threw e, w') => (Returned (validate_catch e), w')
    end.
Proof.
  intros Hh. rewrite fetch_validate by done. unfold validate_route; cbn.
  destruct token; [done|]; cbn.
  unfold mbind, Js_bind, bind, settled, try_catch. rewrite Hh.
  by destruct (validateAndConsumeToken tokenHash keepToken w) as [[[]|e] w'].
Qed.

(** A token that [hashToken] rejects makes the whole handler throw:
    the call sits outside the [try]. *)
Lemma validate_route_unhashed token keepToken e w :
  token ≠ "" → hashToken token = Threw e →
  fetch (validate_request token keepToken) w = (Threw e, w).
Proof.
  intros Hne Hh. rewrite fetch_validate by done. unfold validate_route; cbn.
  destruct token; [done|]; cbn.
  unfold mbind, Js_bind, bind, settled. by rewrite Hh.
Qed.

Lemma validate_quiet_keep token tokenHash r w :
  quiet w → hashToken token = Returned tokenHash →
  storage w !! token_key tokenHash = Some r → clock w ≤ expires_of r →
  validateAndConsumeToken tokenHash (Some true) w = (Returned tt, w) ∧
  fetch (validate_request token (Some true)) w = (Returned success_response, w).
Proof.
  intros Hq Hh Hr Hle.
  assert (validateAndConsumeToken tokenHash (Some true) w = (Returned tt, w)) as Hrun.
  { rewrite validateAndConsumeToken_quiet, Hr by done. unfold expired.
    by destruct (Z.ltb_spec (expires_of r) (clock w)); [lia|]. }
  split; [done|]. by rewrite (validate_route_hashed _ _ _ _ Hh), Hrun.
Qed.

(** C8. While a token record is unexpired, a validation that asks to
    keep it succeeds and leaves the world as it found it; so every call
    of a run of such validations succeeds ([success: true] at the HTTP
    level), and the record set after the run is the one before it. *)
Theorem retained_validation_is_idempotent token tokenHash r (times : list Z) (w : World) :
  quiet w → hashToken token = Returned tokenHash →
  storage w !! token_key tokenHash = Some r →
  Forall (λ t, t ≤ expires_of r) times →
  let store_calls := (λ t, (t, validateAndConsumeToken tokenHash (Some true))) <$> times in
  let http_calls := (λ t, (t, fetch (validate_request token (Some true)))) <$> times in
  (serially store_calls w).1 = (λ _, Returned tt) <$> times ∧
  storage (serially store_calls w).2 = storage w ∧
  (serially http_calls w).1 = (λ _, Returned success_response) <$> times ∧
  storage (serially http_calls w).2 = storage w.
Proof.
  intros Hq Hh Hr Hall. rewrite Forall_forall in Hall.
  set (P := λ w', quiet w' ∧ storage w' = storage w).
  assert (∀ t w', t ∈ times → P w' →
            validateAndConsumeToken tokenHash (Some true) (with_clock t w')
              = (Returned tt, with_clock t w') ∧
            fetch (validate_request token (Some true)) (with_clock t w')
              = (Returned success_response, with_clock t w') ∧
            P (with_clock t w')) as Hstep.
  { intros t w' Ht [Hq' Hst].
    assert (P (with_clock t w')) as HP' by done.
    destruct (validate_quiet_keep token tokenHash r (with_clock t w')) as [H1 H2];
      [by destruct HP' | done | by cbn; rewrite Hst | by cbn; apply Hall |].
    done. }
  cbn zeta.
  destruct (serially_constant P (validateAndConsumeToken tokenHash (Some true))
              (Returned tt) times) with (w := w) as (-> & _ & ->); [|done|].
  { intros t w' Ht HP'. destruct (Hstep t w' Ht HP') as (? & _ & ?). eauto. }
  destruct (serially_constant P (fetch (validate_request token (Some true)))
              (Returned success_response) times) with (w := w) as (-> & _ & ->); [|done|].
  { intros t w' Ht HP'. destruct (Hstep t w' Ht HP') as (_ & ? & ?). eauto. }
  done.
Qed.

Lemma validate_quiet_consume token tokenHash keepToken r w :
  quiet w → hashToken token = Returned tokenHash → default false keepToken = false →
  storage w !! token_key tokenHash = Some r → clock w ≤ expires_of r →
  let w' := with_storage (delete (token_key tokenHash) (storage w)) w in
  validateAndConsumeToken tokenHash keepToken w = (Returned tt, w') ∧
  fetch (validate_request token keepToken) w = (Returned success_response, w').
Proof.
  intros Hq Hh Hk Hr Hle w'.
  assert (validateAndConsumeToken tokenHash keepToken w = (Returned tt, w')) as Hrun.
  { rewrite validateAndConsumeToken_quiet, Hr, Hk by done. unfold expired.
    by destruct (Z.ltb_spec (expires_of r) (clock w)); [lia|]. }
  split; [done|]. by rewrite (validate_route_hashed _ _ _ _ Hh), Hrun.
Qed.

Lemma validate_quiet_absent token tokenHash keepToken w :
  quiet w → hashToken token = Returned tokenHash →
  storage w !! token_key tokenHash = None →
  validateAndConsumeToken tokenHash keepToken w = (Threw (JsError ERR_NOT_FOUND), w) ∧
  fetch (validate_request token keepToken) w = (Returned (failure 404 "Token not found"), w).
Proof.
  intros Hq Hh Hr.
  assert (validateAndConsumeToken tokenHash keepToken w = (Threw (JsError ERR_NOT_FOUND), w))
    as Hrun by (by rewrite validateAndConsumeToken_quiet, Hr).
  split; [done|]. by rewrite (validate_route_hashed _ _ _ _ Hh), Hrun.
Qed.

(** C2, amended.  Of the calls of a serialization of validations that
    consume ([keepToken] false or absent) a token whose record is there
    and unexpired when the first one runs, the first succeeds and every
    later one finds no record: the store signals NOT_FOUND and the
    route answers 404 "Token not found". *)
Theorem consumed_once_then_not_found token tokenHash keepToken r (t1 : Z) (times : list Z)
    (w : World) :
  quiet w → hashToken token = Returned tokenHash → default false keepToken = false →
  storage w !! token_key tokenHash = Some r → t1 ≤ expires_of r →
  (serially ((λ t, (t, validateAndConsumeToken tokenHash keepToken)) <$> t1 :: times) w).1
    = Returned tt :: ((λ _, Threw (JsError ERR_NOT_FOUND)) <$> times) ∧
  (serially ((λ t, (t, fetch (validate_request token keepToken))) <$> t1 :: times) w).1
    = Returned success_response ::
      ((λ _, Returned (failure 404 "Token not found")) <$> times).
Proof.
  intros Hq Hh Hk Hr Hle.
  destruct (validate_quiet_consume token tokenHash keepToken r (with_clock t1 w))
    as [Hrun1 Hrun2]; [done..|].
  set (P := λ w', quiet w' ∧ storage w' !! token_key tokenHash = None).
  assert (∀ t w', P w' → P (with_clock t w') ∧
            validateAndConsumeToken tokenHash keepToken (with_clock t w')
              = (Threw (JsError ERR_NOT_FOUND), with_clock t w') ∧
            fetch (validate_request token keepToken) (with_clock t w')
              = (Returned (failure 404 "Token not found"), with_clock t w')) as Hstep.
  { intros t w' [Hq' Hnone]. split; [done|]. by apply validate_quiet_absent. }
  assert (P (with_storage (delete (token_key tokenHash) (storage (with_clock t1 w)))
               (with_clock t1 w))) as HP.
  { split; [done|]. cbn. apply lookup_delete_eq. }
  split; cbn [fmap list_fmap serially].
  - rewrite Hrun1.
    destruct (serially_constant P (validateAndConsumeToken tokenHash keepToken)
                (Threw (JsError ERR_NOT_FOUND)) times) with (w := with_storage
                (delete (token_key tokenHash) (storage (with_clock t1 w))) (with_clock t1 w))
      as [Hrest _]; [|done|].
    { intros t w' _ HP'. destruct (Hstep t w' HP') as (? & ? & _). eauto. }
    revert Hrest. cbn [fmap]. by destruct serially as [rs w'']; cbn; intros ->.
  - rewrite Hrun2.
    destruct (serially_constant P (fetch (validate_request token keepToken))
                (Returned (failure 404 "Token not found")) times) with (w := with_storage
                (delete (token_key tokenHash) (storage (with_clock t1 w))) (with_clock t1 w))
      as [Hrest _]; [|done|].
    { intros t w' _ HP'. destruct (Hstep t w' HP') as (? & _ & ?). eauto. }
    revert Hrest. cbn [fmap]. by destruct serially as [rs w'']; cbn; intros ->.
Qed.

(** With a token that hashes, the route always answers, whatever the
    back end raises, and a failure is a 404, 409 or 410. *)
Lemma validate_route_answers_once_hashed token tokenHash keepToken w :
  hashToken token = Returned tokenHash →
  ∃ response w', fetch (validate_request token keepToken) w = (Returned response, w') ∧
    (response = success_response ∨
     ∃ st error, response = failure st error ∧ st ∈ [404; 409; 410]).
Proof.
  intros Hh. rewrite (validate_route_hashed _ _ _ _ Hh).
  destruct (validateAndConsumeToken tokenHash keepToken w) as [[[]|e] w'];
    eexists _, _; (split; [done|]); [by left|right].
  unfold validate_catch. destruct e as [msg|]; repeat case_match;
    eexists _, _; (split; [done|]); set_solver.
Qed.

(** C6. In the redeem route, once the existence check has found the
    challenge and the solution has verified, a failure of
    [finalizeRedeem] is answered 410 "Challenge expired" when it is
    EXPIRED and 409 "Challenge already redeemed" when it is anything
    else, the store's NOT_FOUND included. *)
Theorem redeem_failure_is_expired_or_already_redeemed (request : Request) (body : BodyFields)
    (token : string) (solutions : list Z) (challenge : Stored) (result : RedeemResult)
    (newToken tokenHash : string) (newExpiry : Z) (e : Thrown) (w w1 w2 : World) :
  method request = "POST" → pathname request = REDEEM_PATH → json request = Some body →
  b_token body = Some token → token ≠ "" → b_solutions body = Some solutions →
  getChallenge token w = (Returned (Some challenge), w1) →
  cap_redeemChallenge (clock (meanwhile w1)) challenge solutions = result →
  success result = true → r_token result = Some newToken →
  r_expires result = Some newExpiry → newExpiry ≠ 0 →
  hashToken newToken = Returned tokenHash →
  finalizeRedeem token tokenHash (StoredToken.Build_t newExpiry) (meanwhile w1) = (Threw e, w2) →
  ∃ response, fetch request w = (Returned response, w2) ∧
    (e = JsError ERR_EXPIRED → response = failure 410 "Challenge expired") ∧
    (e ≠ JsError ERR_EXPIRED → response = failure 409 "Challenge already redeemed") ∧
    (e = JsError ERR_NOT_FOUND → response = failure 409 "Challenge already redeemed").
Proof.
  intros Hm Hp Hj Ht Hne Hs Hget Hres Hsucc Hrt Hre Hnz Hh Hfin.
  exists (redeem_catch e). split.
  - rewrite fetch_redeem by done. unfold redeem_route. rewrite Hj, Hs, Ht.
    destruct token; [done|]; cbn [falsy String.eqb default from_option id].
    unfold mbind, Js_bind, bind at 1. rewrite Hget.
    unfold verifyChallengeSolution, bind, modifies, Date_now, reads, mbind, Js_bind,
      bind, mret, Js_ret, ret. rewrite Hres, Hsucc, Hrt, Hre.
    apply hashToken_returned_nonempty in Hh as Hne'. rewrite Hne'.
    cbn [falsy_num default from_option id negb andb].
    destruct (Z.eqb_spec newExpiry 0); [done|]; cbn [negb].
    unfold settled, try_catch. rewrite Hh, Hfin. done.
  - split; [by intros ->|]. split; [|by intros ->].
    intros Hne'. destruct e as [msg|]; [|done]. cbn.
    destruct (String.eqb_spec msg ERR_EXPIRED); [congruence|done].
Qed.

End Routes.

(** ** The routes on sample requests *)

Example hashToken_sample : hashToken "id:s" = Returned sample_hash.
Proof. vm_compute. reflexivity. Qed.

Lemma retained_validation_is_idempotent_witness :
  (serially ((λ t, (t, validateAndConsumeToken sample_hash (Some true))) <$> [10; 20; 50])
     issued_world).1 = (λ _, Returned tt) <$> [10; 20; 50] ∧
  storage (serially ((λ t, (t, validateAndConsumeToken sample_hash (Some true))) <$> [10; 20; 50])
     issued_world).2 = storage issued_world ∧
  (serially ((λ t, (t, fetch sample_createChallenge sample_redeemChallenge id
                         (validate_request "id:s" (Some true)))) <$> [10; 20; 50])
     issued_world).1 = (λ _, Returned success_response) <$> [10; 20; 50] ∧
  storage (serially ((λ t, (t, fetch sample_createChallenge sample_redeemChallenge id
                         (validate_request "id:s" (Some true)))) <$> [10; 20; 50])
     issued_world).2 = storage issued_world.
Proof.
  apply (retained_validation_is_idempotent sample_createChallenge sample_redeemChallenge id
           "id:s" sample_hash (TokenRec (StoredToken.Build_t 50)) [10; 20; 50] issued_world).
  - reflexivity.
  - vm_compute. reflexivity.
  - vm_compute. reflexivity.
  - repeat constructor; simpl; lia.
Defined.

(** C2, as stated, on two consuming validations of an issued token: the
    claim has the second answered "already consumed" (409); it is answered
    404 "Token not found". *)
Lemma second_validation_is_not_found_not_consumed :
  storage issued_world !! token_key sample_hash = Some (TokenRec (StoredToken.Build_t 50)) ∧
  (serially [(10, fetch sample_createChallenge sample_redeemChallenge id
                    (validate_request "id:s" (Some false)));
             (10, fetch sample_createChallenge sample_redeemChallenge id
                    (validate_request "id:s" (Some false)))] issued_world).1
    = [Returned success_response; Returned (failure 404 "Token not found")] ∧
  failure 404 "Token not found" ≠ failure 409 "Token already consumed".
Proof. repeat split; vm_compute; (reflexivity || discriminate). Qed.

Lemma consumed_once_then_not_found_witness :
  (serially ((λ t, (t, validateAndConsumeToken sample_hash (Some false))) <$> [10; 10; 11])
     issued_world).1
    = Returned tt :: ((λ _, Threw (JsError ERR_NOT_FOUND)) <$> [10; 11]) ∧
  (serially ((λ t, (t, fetch sample_createChallenge sample_redeemChallenge id
                         (validate_request "id:s" (Some false)))) <$> [10; 10; 11])
     issued_world).1
    = Returned success_response :: ((λ _, Returned (failure 404 "Token not found")) <$> [10; 11]).
Proof.
  apply (consumed_once_then_not_found sample_createChallenge sample_redeemChallenge id
           "id:s" sample_hash (Some false) (TokenRec (StoredToken.Build_t 50)) 10 [10; 11]
           issued_world).
  - reflexivity.
  - vm_compute. reflexivity.
  - reflexivity.
  - vm_compute. reflexivity.
  - simpl. lia.
Defined.

Lemma redeem_failure_is_expired_or_already_redeemed_witness :
  ∃ response,
    fetch sample_createChallenge sample_redeemChallenge rival (redeem_request "a" [1; 3; 7])
      early_world = (Returned response, rival early_world) ∧
    (JsError ERR_NOT_FOUND = JsError ERR_EXPIRED → response = failure 410 "Challenge expired") ∧
    (JsError ERR_NOT_FOUND ≠ JsError ERR_EXPIRED →
       response = failure 409 "Challenge already redeemed") ∧
    (JsError ERR_NOT_FOUND = JsError ERR_NOT_FOUND →
       response = failure 409 "Challenge already redeemed").
Proof.
  apply (redeem_failure_is_expired_or_already_redeemed
           sample_createChallenge sample_redeemChallenge rival
           (redeem_request "a" [1; 3; 7]) (mkBody (Some "a") (Some [1; 3; 7]) None)
           "a" [1; 3; 7] (ChallengeRec sample_challenge)
           (sample_redeemChallenge 3 (ChallengeRec sample_challenge) [1; 3; 7])
           "id:s" sample_hash 99 (JsError ERR_NOT_FOUND)
           early_world early_world (rival early_world)).
  all: try reflexivity.
  all: discriminate.
Defined.

(** C7. A validate request whose token has no [':'] makes the handler
    throw: the error of [hashToken] reaches the caller of [fetch] instead
    of a JSON answer with [success: false]. *)
Theorem malformed_token_escapes_the_validate_route :
  fetch sample_createChallenge sample_redeemChallenge id (validate_request "abc" None)
    early_world = (Threw (JsError "Invalid token format"), early_world).
Proof. vm_compute. reflexivity. Qed.

(** ** hashToken *)

Lemma string_app_cons ch (s t : string) : String ch s +:+ t = String ch (s +:+ t).
Proof. reflexivity. Qed.

Lemma string_app_assoc (s t u : string) : (s +:+ t) +:+ u = s +:+ (t +:+ u).
Proof. induction s as [|ch s IH]; [done|]. by rewrite !string_app_cons, IH. Qed.

Lemma split_nonempty sep s : split sep s ≠ [].
Proof. destruct s as [|ch s]; cbn; [done|]. by repeat case_match. Qed.

Lemma split_segments s :
  split ":" s !! 0%nat = Some (first_segment s) ∧ split ":" s !! 1%nat = second_segment s.
Proof.
  unfold first_segment, second_segment.
  induction s as [|ch s [IH0 IH1]]; cbn; [done|].
  destruct (Ascii.eqb ch ":"); cbn; [done|].
  pose proof (split_nonempty ":" s).
  destruct (split ":" s) as [|seg segs]; [done|]. cbn in *. by simplify_eq.
Qed.

Lemma before_colon_tail s x : before_colon (s +:+ ":" +:+ x) = before_colon s.
Proof.
  induction s as [|ch s IH]; [done|].
  rewrite string_app_cons; cbn. destruct (Ascii.eqb ch ":"); [done|]. by rewrite IH.
Qed.

Lemma after_colon_app s rest y :
  after_colon s = Some rest → after_colon (s +:+ y) = Some (rest +:+ y).
Proof.
  induction s as [|ch s IH]; [done|].
  rewrite string_app_cons; cbn. destruct (Ascii.eqb ch ":"); [|done]. by intros [= ->].
Qed.

Lemma after_colon_joined id s : is_Some (after_colon (id +:+ ":" +:+ s)).
Proof.
  induction id as [|ch id IH]; [done|].
  rewrite string_app_cons; cbn. by destruct (Ascii.eqb ch ":").
Qed.

(** [hashToken] in terms of the two segments. *)
Lemma hashToken_segments token :
  hashToken token =
    match second_segment token with
    | Some rawToken =>
        if bool_decide (first_segment token ≠ "" ∧ rawToken ≠ "") then
          Returned (first_segment token +:+ ":" +:+ hex (SHA256.digest (encode rawToken)))
        else Threw (JsError "Invalid token format")
    | None => Threw (JsError "Invalid token format")
    end.
Proof.
  unfold hashToken. destruct (split_segments token) as [-> ->].
  destruct (second_segment token) as [raw|]; cbn [falsy default from_option id].
  - destruct (String.eqb_spec (first_segment token) "") as [He|He],
      (String.eqb_spec raw "") as [Hr|Hr]; cbn;
      [rewrite bool_decide_eq_false_2 by (by intros [? ?])..
      |rewrite bool_decide_eq_true_2 by done]; done.
  - by rewrite orb_true_r.
Qed.

Lemma hashToken_ignores_tail token x :
  is_Some (after_colon token) → hashToken (token +:+ ":" +:+ x) = hashToken token.
Proof.
  intros [rest Hrest]. rewrite !hashToken_segments. unfold second_segment, first_segment.
  rewrite (after_colon_app _ _ _ Hrest), Hrest; cbn.
  by rewrite !before_colon_tail.
Qed.

(** *** The hexadecimal text of a digest *)

Lemma hex_digit_spec n :
  0 ≤ n < 16 → lower_hex_digit (hex_digit n) = true ∧ hex_value (hex_digit n) = Some n.
Proof.
  intros Hn.
  assert (n = 0 ∨ n = 1 ∨ n = 2 ∨ n = 3 ∨ n = 4 ∨ n = 5 ∨ n = 6 ∨ n = 7 ∨ n = 8 ∨
          n = 9 ∨ n = 10 ∨ n = 11 ∨ n = 12 ∨ n = 13 ∨ n = 14 ∨ n = 15) as Hcases by lia.
  clear Hn. repeat (destruct Hcases as [->|Hcases]; [by vm_compute|]).
  subst n. by vm_compute.
Qed.

Lemma hex_byte b :
  is_byte b →
  padStart2 (toString16 b) =
    String (hex_digit (b / 16)) (String (hex_digit (b mod 16)) EmptyString).
Proof.
  intros [? ?]. unfold toString16. destruct (Z.ltb_spec b 16); [|done].
  cbn. rewrite Z.div_small, Z.mod_small by lia. done.
Qed.

Lemma hex_cons b bytes : hex (b :: bytes) = padStart2 (toString16 b) +:+ hex bytes.
Proof.
  unfold hex. cbn [fmap list_fmap String.concat].
  destruct bytes as [|b' bytes]; cbn [fmap list_fmap]; [|done].
  cbn [String.concat]. generalize (padStart2 (toString16 b)).
  induction s as [|ch s IH]; [done|]. by rewrite string_app_cons, <- IH.
Qed.

Lemma hex_spec bytes :
  Forall is_byte bytes →
  String.length (hex bytes) = (2 * length bytes)%nat ∧
  Forall (λ ch, lower_hex_digit ch = true) (String.list_ascii_of_string (hex bytes)) ∧
  unhex (hex bytes) = Some bytes.
Proof.
  induction 1 as [|b bytes Hb _ (IHlen & IHdig & IHun)]; [done|].
  rewrite hex_cons, (hex_byte b Hb). rewrite !string_app_cons. change ("" +:+ ?s) with s.
  destruct Hb as [? ?].
  destruct (hex_digit_spec (b / 16)) as [Hhi1 Hhi2];
    [split; [apply Z.div_pos | apply Z.div_lt_upper_bound]; lia|].
  destruct (hex_digit_spec (b mod 16)) as [Hlo1 Hlo2]; [apply Z.mod_pos_bound; lia|].
  split; [|split].
  - cbn [String.length length]. rewrite IHlen. lia.
  - cbn [String.list_ascii_of_string]. by repeat constructor.
  - cbn [unhex]. rewrite Hhi2, Hlo2, IHun; cbn. do 2 f_equal.
    pose proof (Z.div_mod b 16). lia.
Qed.

Lemma be_bytes_are_bytes n x : Forall is_byte (SHA256.be_bytes n x).
Proof.
  induction n as [|n IH]; cbn; constructor; [|done].
  unfold is_byte. apply Z.mod_pos_bound. lia.
Qed.

Lemma digest_is_32_bytes msg :
  length (SHA256.digest msg) = 32%nat ∧ Forall is_byte (SHA256.digest msg).
Proof.
  unfold SHA256.digest. split.
  - by rewrite !length_app.
  - rewrite !Forall_app. repeat split; apply be_bytes_are_bytes.
Qed.

(** The digest function on the standard test messages. *)
Example sha256_of_abc :
  hex (SHA256.digest (encode "abc"))
    = "ba7816bf8f01cfea414140de5dae2223b00361a396177a9cb410ff61f20015ad".
Proof. vm_compute. reflexivity. Qed.

Example sha256_of_empty :
  hex (SHA256.digest (encode ""))
    = "e3b0c44298fc1c149afbf4c8996fb92427ae41e4649b934ca495991b7852b855".
Proof. vm_compute. reflexivity. Qed.

Example sha256_of_two_blocks :
  hex (SHA256.digest (encode "abcdbcdecdefdefgefghfghighijhijkijkljklmklmnlmnomnopnopq"))
    = "248d6a61d20638b8e5c026930c3e6039a33ce45964ff2167f6ecedd419db06c1".
Proof. vm_compute. reflexivity. Qed.

(** C10. [hashToken] is a function of its input that returns exactly when
    the segment before the first [':'] and the segment after it (up to a
    second [':'], if any) are both non-empty, and throws otherwise; what it
    returns is the first segment, a [':'], and the SHA-256 digest of the
    second segment as 64 lowercase hexadecimal digits; whatever follows a
    second [':'] does not reach the result, so ["id:s"] and ["id:s:x"] give
    the same key. *)
Theorem hashToken_hashes_the_second_segment :
  (∀ token,
     hashToken token =
       match second_segment token with
       | Some rawToken =>
           if bool_decide (first_segment token ≠ "" ∧ rawToken ≠ "") then
             Returned (first_segment token +:+ ":" +:+ hex (SHA256.digest (encode rawToken)))
           else Threw (JsError "Invalid token format")
       | None => Threw (JsError "Invalid token format")
       end) ∧
  (∀ data,
     String.length (hex (SHA256.digest data)) = 64%nat ∧
     Forall (λ ch, lower_hex_digit ch = true)
       (String.list_ascii_of_string (hex (SHA256.digest data))) ∧
     unhex (hex (SHA256.digest data)) = Some (SHA256.digest data)) ∧
  (∀ id secret x,
     hashToken (id +:+ ":" +:+ secret +:+ ":" +:+ x) = hashToken (id +:+ ":" +:+ secret)) ∧
  hashToken "id:s" = Returned sample_hash ∧
  hashToken "id:s:x" = Returned sample_hash ∧
  hashToken "ids" = Threw (JsError "Invalid token format") ∧
  hashToken "id:" = Threw (JsError "Invalid token format") ∧
  hashToken ":s" = Threw (JsError "Invalid token format").
Proof.
  split; [exact hashToken_segments|]. split.
  { intros data. destruct (digest_is_32_bytes data) as [Hlen Hbytes].
    destruct (hex_spec _ Hbytes) as (? & ? & ?). by rewrite Hlen in *. }
  split.
  { intros id secret x.
    rewrite <- (hashToken_ignores_tail (id +:+ ":" +:+ secret) x)
      by apply after_colon_joined.
    by rewrite !string_app_assoc. }
  repeat split; vm_compute; reflexivity.
Qed.

(** ** The garbage collector *)

(** *** A tick on a quiet store *)

Lemma sweep_quiet now entries w :
  quiet w →
  sweep now entries w = (Returned tt, with_storage (foldl (sweep_step now) (storage w) entries) w).
Proof.
  revert w. induction entries as [|[k v] entries IH]; intros w Hq.
  - cbn [foldl]. by rewrite with_storage_same.
  - unfold sweep in *. cbn [for_of foldl]. unfold mbind, Js_bind, bind. unfold sweep_step at 2.
    cbn [fst snd]. destruct (expired v now).
    + unfold storage_delete, mbind, Js_bind, bind, modifies.
      rewrite storage_call_quiet by done.
      rewrite IH by done. by rewrite with_storage_twice.
    + cbn. by rewrite IH.
Qed.

Lemma lookup_foldl_sweep now entries (m : gmap string Stored) k v :
  foldl (sweep_step now) m entries !! k = Some v ↔
  m !! k = Some v ∧ ∀ v', (k, v') ∈ entries → expired v' now = false.
Proof.
  revert m. induction entries as [|[k1 v1] entries IH]; intros m; cbn [foldl].
  - split; [|by intros [? _]]. intros ?; split; [done|]. by intros ? ?%elem_of_nil.
  - rewrite IH. unfold sweep_step at 1; cbn [fst snd].
    destruct (expired v1 now) eqn:Hexp.
    + rewrite lookup_delete_Some. split.
      * intros [[Hne Hm] Hrest]. split; [done|].
        intros v' [[= -> ->]|?]%elem_of_cons; [done|by apply Hrest].
      * intros [Hm Hall]. split; [split; [|done]|].
        -- intros ->. specialize (Hall v1 ltac:(left)). congruence.
        -- intros v' ?. apply Hall. by right.
    + split; intros [Hm Hall]; (split; [done|]).
      * intros v' [[= -> ->]|?]%elem_of_cons; [done|by apply Hall].
      * intros v' ?. apply Hall. by right.
Qed.

(** Sweeping the entries listed under a prefix removes exactly the
    expired ones among them. *)
Lemma sweep_listed now p (m : gmap string Stored) :
  foldl (sweep_step now) m (map_to_list (filter (has_prefix p) m))
    = filter (λ kv, ¬ (has_prefix p kv ∧ expires_of kv.2 < now)) m.
Proof.
  apply map_eq; intros k. apply option_eq; intros v.
  rewrite lookup_foldl_sweep, map_lookup_filter_Some. cbn [fst snd].
  split; intros [Hm Hrest]; (split; [done|]).
  - intros [Hp Hlt]. specialize (Hrest v). rewrite elem_of_map_to_list in Hrest.
    rewrite map_lookup_filter_Some in Hrest. unfold expired in Hrest.
    specialize (Hrest ltac:(done)). lia.
  - intros v' (Hm' & Hp)%elem_of_map_to_list%map_lookup_filter_Some.
    assert (v' = v) as -> by congruence.
    unfold expired. destruct (Z.ltb_spec (expires_of v) now); [|done].
    by destruct Hrest.
Qed.

Lemma alarm_quiet w :
  quiet w →
  alarm w = (Returned tt,
             with_alarm (Some (clock w + CLEANUP_INTERVAL_MS))
               (with_storage (filter (λ kv, ¬ sweepable (clock w) kv) (storage w)) w)).
Proof.
  intros Hq. unfold alarm, try_catch.
  unfold mbind, Js_bind, bind at 1. unfold Date_now at 1, reads at 1.
  unfold bind at 1. unfold storage_list at 1, mbind, Js_bind, bind at 1, reads at 1.
  rewrite storage_call_quiet by done.
  unfold bind at 1. rewrite sweep_quiet by done.
  unfold bind at 1. unfold storage_list at 1, mbind, Js_bind, bind at 1, reads at 1.
  rewrite storage_call_quiet by (by destruct w).
  unfold bind at 1. rewrite sweep_quiet by (by destruct w).
  unfold bind at 1, Date_now, reads, storage_setAlarm, mbind, Js_bind, bind, modifies.
  rewrite storage_call_quiet by (by destruct w).
  rewrite with_storage_twice. destruct w as [st al cl co fs]; cbn.
  rewrite !sweep_listed, map_filter_filter. do 3 f_equal.
  apply map_filter_ext. intros k v _. unfold sweepable. cbn. tauto.
Qed.

(** *** A tick on a store that raises *)

Section Triples.

Context {A B : Type}.
Implicit Types (P : World → Prop) (E : Thrown → World → Prop).

Lemma triple_ret (a : A) P (Q : A → World → Prop) E :
  (∀ w, P w → Q a w) → triple P (mret a) Q E.
Proof. intros HQ w HP. by apply HQ. Qed.

Lemma triple_bind (m : Js A) (k : A → Js B) P (Q : A → World → Prop)
    (R : B → World → Prop) E :
  triple P m Q E → (∀ a, triple (Q a) (k a) R E) → triple P (m ≫= k) R E.
Proof.
  intros Hm Hk w HP. specialize (Hm w HP).
  unfold mbind, Js_bind, bind. destruct (m w) as [[a|e] w']; [|done].
  by apply Hk.
Qed.

Lemma triple_try_catch (body : Js A) (handler : Thrown → Js A) P
    (Q : A → World → Prop) E E' :
  triple P body Q E → (∀ e, triple (E e) (handler e) Q E') →
  triple P (try_catch body handler) Q E'.
Proof.
  intros Hb Hh w HP. specialize (Hb w HP).
  unfold try_catch. destruct (body w) as [[a|e] w']; [done|].
  by apply Hh.
Qed.

Lemma triple_weaken (m : Js A) P P' (Q Q' : A → World → Prop) E E' :
  triple P' m Q' E' → (∀ w, P w → P' w) → (∀ a w, Q' a w → Q a w) →
  (∀ e w, E' e w → E e w) → triple P m Q E.
Proof.
  intros Hm HP HQ HE w Hw. specialize (Hm w (HP w Hw)).
  destruct (m w) as [[a|e] w']; auto.
Qed.

Lemma triple_pure_l (m : Js A) (φ : Prop) P (Q : A → World → Prop) E :
  (φ → triple P m Q E) → triple (λ w, φ ∧ P w) m Q E.
Proof. intros Hm w [Hφ HP]. by apply Hm. Qed.

Lemma triple_pure_r (m : Js A) (φ : Prop) P (Q : A → World → Prop) E :
  (φ → triple P m Q E) → triple (λ w, P w ∧ φ) m Q E.
Proof. intros Hm w [HP Hφ]. by apply Hm. Qed.

Lemma triple_reads (f : World → A) P E :
  triple P (reads f) (λ a w, a = f w ∧ P w) E.
Proof. by intros w HP. Qed.

End Triples.

Lemma triple_modifies (f : World → World) (P : World → Prop) (Q : World → Prop) E :
  (∀ w, P w → Q (f w)) → triple P (modifies f) (λ _, Q) E.
Proof. intros HQ w HP. by apply HQ. Qed.

Lemma triple_for_of {A} (xs : list A) (body : A → Js unit) (I : World → Prop) E :
  (∀ x, x ∈ xs → triple I (body x) (λ _, I) E) →
  triple I (for_of xs body) (λ _, I) E.
Proof.
  induction xs as [|x xs IH]; intros Hbody; cbn [for_of].
  - by apply triple_ret.
  - eapply triple_bind; [apply Hbody; by left|].
    intros ?; cbn beta. apply IH. intros y Hy. apply Hbody. by right.
Qed.

(** A property that survives the consumption of faults survives a
    storage call, whether it raises or not. *)
Lemma triple_storage_call op (I : World → Prop) :
  (∀ w fs, I w → fs `suffix_of` faults w → I (with_faults fs w)) →
  triple I (storage_call op) (λ _, I) (λ _, I).
Proof.
  intros Hstable w HI.
  destruct (storage_call_frame op w) as (r & fs & -> & Hfs).
  destruct r; by apply Hstable.
Qed.

Lemma tidy_faults w0 w fs :
  tidy w0 w → fs `suffix_of` faults w → tidy w0 (with_faults fs w).
Proof.
  intros (? & ? & ? & Hf) [pre Hfs]. split_and!; [done..|].
  cbn. rewrite Hfs in Hf. by apply Forall_app in Hf as [_ ?].
Qed.

Lemma tidy_start w0 : Forall (λ f : Fault, f OpSetAlarm = None) (faults w0) → tidy w0 w0.
Proof. intros ?. split_and!; [done..| |done]. intros k v ? ?; congruence. Qed.

Lemma triple_tidy_call w0 op :
  triple (tidy w0) (storage_call op) (λ _, tidy w0) (λ _, tidy w0).
Proof. apply triple_storage_call. intros w fs. apply tidy_faults. Qed.

Lemma triple_tidy_now w0 E :
  triple (tidy w0) Date_now (λ t w, t = clock w0 ∧ tidy w0 w) E.
Proof. intros w Hw. cbn. split; [apply Hw|done]. Qed.

Lemma triple_tidy_list w0 p :
  triple (tidy w0) (storage_list p)
    (λ entries w, tidy w0 w ∧
       ∀ kv, kv ∈ entries → has_prefix p kv ∧ storage w0 !! kv.1 = Some kv.2)
    (λ _, tidy w0).
Proof.
  unfold storage_list. eapply triple_bind; [apply triple_tidy_call|]. intros ?; cbn beta.
  intros w Hw. cbn. split; [done|]. intros [k v].
  rewrite elem_of_map_to_list, map_lookup_filter_Some. intros [Hkv Hp].
  split; [done|]. by apply Hw.
Qed.

Lemma triple_tidy_delete w0 k v :
  storage w0 !! k = Some v → sweepable (clock w0) (k, v) →
  triple (tidy w0) (storage_delete k) (λ _, tidy w0) (λ _, tidy w0).
Proof.
  intros Hk Hsw. unfold storage_delete.
  eapply triple_bind; [apply triple_tidy_call|]. intros ?; cbn beta.
  apply triple_modifies. intros w (Hc & Hsub & Hgone & Hf).
  split_and!; [done| | |done]; cbn.
  - intros k' v' [_ ?]%lookup_delete_Some. by apply Hsub.
  - intros k' v' Hk' [<-|Hnone]%lookup_delete_None; [|by eapply Hgone].
    by assert (v' = v) as -> by congruence.
Qed.

Lemma triple_tidy_sweep w0 p entries :
  p = "challenge:" ∨ p = "token:" →
  (∀ kv, kv ∈ entries → has_prefix p kv ∧ storage w0 !! kv.1 = Some kv.2) →
  triple (tidy w0) (sweep (clock w0) entries) (λ _, tidy w0) (λ _, tidy w0).
Proof.
  intros Hp Hentries. apply triple_for_of. intros [k v] [Hpre Hkv]%Hentries.
  cbn [fst snd] in *. unfold expired.
  destruct (Z.ltb_spec (expires_of v) (clock w0)); [|by apply triple_ret].
  apply (triple_tidy_delete w0 k v); [done|].
  split; [|done]. destruct Hp as [-> | ->]; [by left|by right].
Qed.

Lemma triple_tidy_setAlarm w0 t E :
  triple (tidy w0) (storage_setAlarm t) (λ _ w, tidy w0 w ∧ alarmTime w = Some t) E.
Proof.
  intros w Hw. unfold storage_setAlarm, mbind, Js_bind, bind, modifies, storage_call.
  destruct Hw as (Hc & Hsub & Hgone & Hf).
  destruct w as [st al cl co [|f fs]]; cbn in *.
  - by split; [split_and!|].
  - apply Forall_cons in Hf as [-> Hf]. by split; [split_and!|].
Qed.

(** Unless [setAlarm] itself is refused, a tick returns, whatever the
    listing and the deletions raise, with the next tick armed. *)
Lemma triple_alarm w0 :
  triple (λ w, w = w0 ∧ Forall (λ f : Fault, f OpSetAlarm = None) (faults w0)) alarm
    (λ _ w, tidy w0 w ∧ alarmTime w = Some (clock w0 + CLEANUP_INTERVAL_MS))
    (λ _ _, False).
Proof.
  apply triple_weaken with (P' := tidy w0)
    (Q' := λ _ w, tidy w0 w ∧ alarmTime w = Some (clock w0 + CLEANUP_INTERVAL_MS))
    (E' := λ _ _, False);
    [|by intros w [-> ?]; apply tidy_start|done..].
  unfold alarm. eapply triple_try_catch with (E := λ _, tidy w0).
  - eapply triple_bind; [apply triple_tidy_now|]. intros now.
    apply triple_pure_l; intros ->.
    eapply triple_bind; [apply triple_tidy_list|]. intros challenges.
    eapply triple_bind.
    { apply triple_pure_r; intros Hentries. by apply (triple_tidy_sweep w0 "challenge:"); [left|]. }
    intros ?; cbn beta. eapply triple_bind; [apply triple_tidy_list|]. intros tokens.
    eapply triple_bind.
    { apply triple_pure_r; intros Hentries. by apply (triple_tidy_sweep w0 "token:"); [right|]. }
    intros ?; cbn beta. eapply triple_bind; [apply triple_tidy_now|]. intros t.
    apply triple_pure_l; intros ->.
    apply triple_tidy_setAlarm.
  - intros e. eapply triple_bind.
    { apply (triple_modifies _ (tidy w0) (tidy w0)). by intros w (? & ? & ? & ?). }
    intros ?; cbn beta. eapply triple_bind; [apply triple_tidy_now|]. intros t.
    apply triple_pure_l; intros ->. apply triple_tidy_setAlarm.
Qed.

(** C9. A tick on a quiet store deletes exactly the challenge and token
    records whose [expires] is before the current time, leaves every other
    record as it is, and arms the next tick at now + interval.  When the
    listing or a deletion raises, the tick still returns with the next
    tick armed at now + interval (as long as [setAlarm] itself is not
    refused), no record has appeared or changed, and only records that
    were due have gone. *)
Theorem alarm_sweeps_expired_and_reschedules (w : World) :
  (quiet w →
     ∃ w', alarm w = (Returned tt, w') ∧
       storage w' = filter (λ kv, ¬ sweepable (clock w) kv) (storage w) ∧
       (∀ k v, storage w !! k = Some v →
          storage w' !! k = if decide (sweepable (clock w) (k, v)) then None else Some v) ∧
       alarmTime w' = Some (clock w + CLEANUP_INTERVAL_MS)) ∧
  (Forall (λ f : Fault, f OpSetAlarm = None) (faults w) →
     ∃ w', alarm w = (Returned tt, w') ∧
       alarmTime w' = Some (clock w + CLEANUP_INTERVAL_MS) ∧
       (∀ k v, storage w !! k = Some v → ¬ sweepable (clock w) (k, v) →
          storage w' !! k = Some v) ∧
       (∀ k v, storage w' !! k = Some v → storage w !! k = Some v)).
Proof.
  split.
  - intros Hq. eexists. split; [by apply alarm_quiet|].
    destruct w as [st al cl co fs]; cbn. split; [done|]. split; [|done].
    intros k v Hk. case_decide as Hsw.
    + apply map_lookup_filter_None. right. intros v' Hk'.
      assert (v' = v) as -> by congruence. by intros Hn.
    + by apply map_lookup_filter_Some.
  - intros Hf. pose proof (triple_alarm w w (conj eq_refl Hf)) as Hrun.
    destruct (alarm w) as [[[]|e] w']; [|done].
    destruct Hrun as [(Hc & Hsub & Hgone & _) Hal].
    exists w'. split; [done|]. split; [done|]. split; [|done].
    intros k v Hk Hns. destruct (storage w' !! k) as [v'|] eqn:Hk'.
    + apply Hsub in Hk'. congruence.
    + by destruct Hns; apply Hgone.
Qed.

Lemma alarm_sweeps_expired_and_reschedules_witness :
  (∃ w', alarm mixed_world = (Returned tt, w') ∧
     storage w' = filter (λ kv, ¬ sweepable (clock mixed_world) kv) (storage mixed_world) ∧
     (∀ k v, storage mixed_world !! k = Some v →
        storage w' !! k = if decide (sweepable (clock mixed_world) (k, v)) then None else Some v) ∧
     alarmTime w' = Some (clock mixed_world + CLEANUP_INTERVAL_MS)) ∧
  (∃ w', alarm flaky_world = (Returned tt, w') ∧
     alarmTime w' = Some (clock flaky_world + CLEANUP_INTERVAL_MS) ∧
     (∀ k v, storage flaky_world !! k = Some v → ¬ sweepable (clock flaky_world) (k, v) →
        storage w' !! k = Some v) ∧
     (∀ k v, storage w' !! k = Some v → storage flaky_world !! k = Some v)).
Proof.
  split.
  - apply (proj1 (alarm_sweeps_expired_and_reschedules mixed_world)). reflexivity.
  - apply (proj2 (alarm_sweeps_expired_and_reschedules flaky_world)).
    repeat constructor.
Defined.

(** The same two ticks, evaluated. *)
Example alarm_on_mixed_world :
  alarm mixed_world =
    (Returned tt,
     mkWorld (<[token_key sample_hash := TokenRec (StoredToken.Build_t 50)]> ∅)
       (Some 60010) 10 [] []).
Proof. vm_compute. reflexivity. Qed.

Example alarm_on_flaky_world :
  alarm flaky_world =
    (Returned tt,
     mkWorld sample_storage (Some 60010) 10 [JsError "storage unavailable"] []).
Proof. vm_compute. reflexivity. Qed.

(** * Further properties *)

(** ** Keys *)

Lemma string_prefix_app p s : String.prefix p (p +:+ s) = true.
Proof.
  induction p as [|ch p IH]; [by destruct s|].
  rewrite string_app_cons; cbn. by destruct (ascii_dec ch ch).
Qed.

Lemma string_app_inj p (a b : string) : p +:+ a = p +:+ b → a = b.
Proof.
  induction p as [|ch p IH]; [done|]. rewrite !string_app_cons. intros [= ?]. by apply IH.
Qed.

Lemma challenge_key_inj t1 t2 : challenge_key t1 = challenge_key t2 → t1 = t2.
Proof. apply string_app_inj. Qed.

Lemma token_key_inj h1 h2 : token_key h1 = token_key h2 → h1 = h2.
Proof. apply string_app_inj. Qed.

(** ** The constructor *)

(** X1. On a quiet store the constructor leaves an alarm that is pending
    (and not at time 0) as it is, arms one at now + interval otherwise, and
    does not touch the records; so an alarm is pending once it has run, and
    running it again changes nothing. *)
Theorem initializing_arms_once (w : World) :
  quiet w →
  ∃ w', initializing w = (Returned tt, w') ∧
    storage w' = storage w ∧
    (alarmTime w' = match alarmTime w with
                    | Some scheduled =>
                        if scheduled =? 0 then Some (clock w + CLEANUP_INTERVAL_MS)
                        else Some scheduled
                    | None => Some (clock w + CLEANUP_INTERVAL_MS)
                    end) ∧
    is_Some (alarmTime w') ∧
    (0 ≤ clock w → initializing w' = (Returned tt, w')).
Proof.
  destruct w as [st al cl co fs]. unfold quiet; cbn; intros ->.
  unfold initializing; js_unfold; cbn.
  destruct al as [a|]; cbn; [destruct (Z.eqb_spec a 0); cbn|].
  - eexists; repeat split; cbn; eauto. intros ?.
    unfold CLEANUP_INTERVAL_MS. destruct (Z.eqb_spec (cl + 60 * 1000) 0); [lia|done].
  - eexists; repeat split; cbn; eauto. intros _.
    by destruct (Z.eqb_spec a 0).
  - eexists; repeat split; cbn; eauto. intros ?.
    unfold CLEANUP_INTERVAL_MS. destruct (Z.eqb_spec (cl + 60 * 1000) 0); [lia|done].
Qed.

Lemma initializing_arms_once_witness :
  (∃ w', initializing early_world = (Returned tt, w') ∧
     storage w' = storage early_world ∧
     alarmTime w' = Some (clock early_world + CLEANUP_INTERVAL_MS) ∧
     is_Some (alarmTime w') ∧
     (0 ≤ clock early_world → initializing w' = (Returned tt, w'))) ∧
  (∃ w', initializing armed_world = (Returned tt, w') ∧
     storage w' = storage armed_world ∧
     alarmTime w' = Some 777 ∧
     is_Some (alarmTime w') ∧
     (0 ≤ clock armed_world → initializing w' = (Returned tt, w'))).
Proof.
  split.
  - apply (initializing_arms_once early_world). reflexivity.
  - apply (initializing_arms_once armed_world). reflexivity.
Defined.

(** ** Storing and fetching a challenge *)

Lemma storeChallenge_quiet token c w :
  quiet w →
  storeChallenge token c w =
    (Returned tt, with_storage (<[challenge_key token := ChallengeRec c]> (storage w)) w).
Proof.
  destruct w as [st al cl co fs]. unfold quiet; cbn; intros ->.
  unfold storeChallenge; js_unfold; by cbn.
Qed.

Lemma getChallenge_quiet token w :
  quiet w → getChallenge token w = (Returned (storage w !! challenge_key token), w).
Proof.
  destruct w as [st al cl co fs]. unfold quiet; cbn; intros ->.
  unfold getChallenge; js_unfold; by cbn.
Qed.

(** X2. On a quiet store, [getChallenge] after [storeChallenge] under the
    same token yields the challenge stored (the last one, when the token
    is stored twice); challenges under other tokens and all token records
    are as before. *)
Theorem getChallenge_after_storeChallenge (w : World) (token : string) (c0 c1 : Challenge.t) :
  quiet w →
  ∃ w0 w1,
    storeChallenge token c0 w = (Returned tt, w0) ∧
    storeChallenge token c1 w0 = (Returned tt, w1) ∧
    getChallenge token w0 = (Returned (Some (ChallengeRec c0)), w0) ∧
    getChallenge token w1 = (Returned (Some (ChallengeRec c1)), w1) ∧
    (∀ other, other ≠ token → (getChallenge other w1).1 = (getChallenge other w).1) ∧
    (∀ tokenHash, storage w1 !! token_key tokenHash = storage w !! token_key tokenHash).
Proof.
  intros Hq. eexists _, _.
  split; [by apply storeChallenge_quiet|]. split; [by apply storeChallenge_quiet|].
  rewrite !getChallenge_quiet by done. destruct w as [st al cl co fs]; cbn.
  rewrite !lookup_insert_eq. split; [done|]. split; [done|]. split.
  - intros other Hne. rewrite !getChallenge_quiet by done; cbn.
    rewrite !lookup_insert_ne; [done|intros ?%challenge_key_inj; done..].
  - intros tokenHash.
    rewrite !lookup_insert_ne; [done|apply challenge_key_not_token_key..].
Qed.

Lemma getChallenge_after_storeChallenge_witness :
  ∃ w0 w1,
    storeChallenge "a" sample_challenge issued_world = (Returned tt, w0) ∧
    storeChallenge "a" sample_challenge w0 = (Returned tt, w1) ∧
    getChallenge "a" w0 = (Returned (Some (ChallengeRec sample_challenge)), w0) ∧
    getChallenge "a" w1 = (Returned (Some (ChallengeRec sample_challenge)), w1) ∧
    (∀ other, other ≠ "a" → (getChallenge other w1).1 = (getChallenge other issued_world).1) ∧
    (∀ tokenHash,
       storage w1 !! token_key tokenHash = storage issued_world !! token_key tokenHash).
Proof.
  apply (getChallenge_after_storeChallenge issued_world "a" sample_challenge sample_challenge).
  reflexivity.
Defined.

(** ** What the two transactions leave alone *)

Lemma finalizeRedeem_frame token tokenHash tokenData w res w' :
  finalizeRedeem token tokenHash tokenData w = (res, w') →
  alarmTime w' = alarmTime w ∧ clock w' = clock w ∧ console w' = console w.
Proof.
  destruct w as [st al cl co fs]. unfold finalizeRedeem, transaction. js_unfold; cbn.
  repeat (case_match; simplify_eq/=); by intros [= <- <-].
Qed.

Lemma validateAndConsumeToken_frame tokenHash keepToken w res w' :
  validateAndConsumeToken tokenHash keepToken w = (res, w') →
  alarmTime w' = alarmTime w ∧ clock w' = clock w ∧ console w' = console w.
Proof.
  destruct w as [st al cl co fs]. unfold validateAndConsumeToken, transaction. js_unfold; cbn.
  repeat (case_match; simplify_eq/=); by intros [= <- <-].
Qed.

(** X3. Whatever the back end raises and however the call ends,
    [finalizeRedeem] changes no record but the challenge of its id and the
    token of its hash, and [validateAndConsumeToken] changes no record but
    the token of its hash and never adds one; neither touches the alarm. *)
Theorem transactions_touch_only_their_records (w w' : World) (res : Completion unit) :
  (∀ token tokenHash tokenData,
     finalizeRedeem token tokenHash tokenData w = (res, w') →
     (∀ k, k ≠ challenge_key token → k ≠ token_key tokenHash →
        storage w' !! k = storage w !! k) ∧
     alarmTime w' = alarmTime w) ∧
  (∀ tokenHash keepToken,
     validateAndConsumeToken tokenHash keepToken w = (res, w') →
     (∀ k, k ≠ token_key tokenHash → storage w' !! k = storage w !! k) ∧
     (∀ k v, storage w' !! k = Some v → storage w !! k = Some v) ∧
     alarmTime w' = alarmTime w).
Proof.
  split.
  - intros token tokenHash tokenData Hrun.
    split; [|by apply finalizeRedeem_frame in Hrun as (? & _)].
    intros k Hc Ht. destruct res as [[]|e].
    + apply finalizeRedeem_returned in Hrun as [_ ->].
      by rewrite lookup_insert_ne, lookup_delete_ne.
    + apply transaction_threw in Hrun. by rewrite Hrun.
  - intros tokenHash keepToken Hrun.
    split; [|split; [|by apply validateAndConsumeToken_frame in Hrun as (? & _)]].
    + intros k Ht. destruct res as [[]|e].
      * apply validateAndConsumeToken_returned in Hrun as [_ ->].
        destruct (default false keepToken); [done|]. by rewrite lookup_delete_ne.
      * apply transaction_threw in Hrun. by rewrite Hrun.
    + intros k v. destruct res as [[]|e].
      * apply validateAndConsumeToken_returned in Hrun as [_ ->].
        destruct (default false keepToken); [done|]. by intros [_ ?]%lookup_delete_Some.
      * apply transaction_threw in Hrun. by rewrite Hrun.
Qed.

Lemma transactions_touch_only_their_records_witness :
  ((∀ k, k ≠ challenge_key "a" → k ≠ token_key "a:h2" →
      storage (finalizeRedeem "a" "a:h2" fresh_token early_world).2 !! k
        = storage early_world !! k) ∧
   alarmTime (finalizeRedeem "a" "a:h2" fresh_token early_world).2 = alarmTime early_world) ∧
  ((∀ k, k ≠ token_key "a:h" →
      storage (validateAndConsumeToken "a:h" None flaky_world).2 !! k
        = storage flaky_world !! k) ∧
   (∀ k v, storage (validateAndConsumeToken "a:h" None flaky_world).2 !! k = Some v →
      storage flaky_world !! k = Some v) ∧
   alarmTime (validateAndConsumeToken "a:h" None flaky_world).2 = alarmTime flaky_world).
Proof.
  split.
  - apply (proj1 (transactions_touch_only_their_records early_world
                    (finalizeRedeem "a" "a:h2" fresh_token early_world).2
                    (finalizeRedeem "a" "a:h2" fresh_token early_world).1)
             "a" "a:h2" fresh_token).
    vm_compute. reflexivity.
  - apply (proj2 (transactions_touch_only_their_records flaky_world
                    (validateAndConsumeToken "a:h" None flaky_world).2
                    (validateAndConsumeToken "a:h" None flaky_world).1)
             "a:h" None).
    vm_compute. reflexivity.
Defined.

(** ** The routes, path by path *)

Lemma hashToken_throws_invalid token e :
  hashToken token = Threw e → e = JsError "Invalid token format".
Proof. unfold hashToken. case_match; by intros [= <-]. Qed.

Ltac solve_elem_of := rewrite ?elem_of_cons; intuition.

Lemma cors_in_json_headers : CORS_HEADERS ⊆ json_headers.
Proof. intros x Hx. by right. Qed.

Lemma well_formed_failure st error :
  st ∈ [400; 404; 409; 410] → well_formed_response (failure st error).
Proof.
  intros Hst. split; cbn; [apply cors_in_json_headers|].
  revert Hst. solve_elem_of.
Qed.

Lemma well_formed_json j : well_formed_response (mkResponse 200 json_headers (JsonText j)).
Proof. split; cbn; [apply cors_in_json_headers|by left]. Qed.

Lemma well_formed_redeem_catch e : well_formed_response (redeem_catch e).
Proof.
  unfold redeem_catch. destruct e as [msg|]; [case_match|];
    apply well_formed_failure; solve_elem_of.
Qed.

Lemma well_formed_validate_catch e : well_formed_response (validate_catch e).
Proof.
  unfold validate_catch. destruct e as [msg|]; repeat case_match;
    apply well_formed_failure; solve_elem_of.
Qed.

Lemma triple_top {A} (m : Js A) : triple (λ _, True) m (λ _ _, True) (λ _ _, True).
Proof. intros w _. by destruct (m w) as [[a|e] w']. Qed.

Section Paths.

Variable cap_createChallenge : Z → CreatedChallenge.
Variable cap_redeemChallenge : Z → Stored → list Z → RedeemResult.

#[local] Abbreviation serve := (fetch cap_createChallenge cap_redeemChallenge).

(** X4. A request that is refused before the store is asked anything -
    a preflight, a request outside the API, a body that does not parse or
    lacks a field - is answered at once (200 without a body, 404
    "Not Found", or 400 with the reason) and leaves the world, the fault
    plan included, exactly as it was. *)
Theorem refused_requests_leave_the_world_alone meanwhile (request : Request) (w : World) :
  (method request = "OPTIONS" →
     serve meanwhile request w = (Returned (mkResponse 200 CORS_HEADERS NoBody), w)) ∧
  (method request ≠ "OPTIONS" → api_call request = false →
     serve meanwhile request w = (Returned (mkResponse 404 CORS_HEADERS (Text "Not Found")), w)) ∧
  (method request = "POST" → pathname request = REDEEM_PATH → json request = None →
     serve meanwhile request w = (Returned (failure 400 "Invalid request body"), w)) ∧
  (method request = "POST" → pathname request = REDEEM_PATH →
     ∀ body, json request = Some body →
     falsy (b_token body) = true ∨ b_solutions body = None →
     serve meanwhile request w = (Returned (failure 400 "Missing token or solutions"), w)) ∧
  (method request = "POST" → pathname request = VALIDATE_PATH → json request = None →
     serve meanwhile request w = (Returned (failure 400 "Invalid request body"), w)) ∧
  (method request = "POST" → pathname request = VALIDATE_PATH →
     ∀ body, json request = Some body → falsy (b_token body) = true →
     serve meanwhile request w = (Returned (failure 400 "Missing token"), w)).
Proof.
  split_and!.
  - intros Hm. unfold fetch. by rewrite Hm.
  - intros Hm Hapi. unfold fetch, api_call in *.
    destruct (String.eqb_spec (method request) "OPTIONS"); [done|].
    destruct (String.eqb (method request) "POST"); [|done]. cbn in *.
    by destruct (String.eqb (pathname request) CHALLENGE_PATH),
      (String.eqb (pathname request) REDEEM_PATH),
      (String.eqb (pathname request) VALIDATE_PATH).
  - intros Hm Hp Hj. rewrite fetch_redeem by done. unfold redeem_route. by rewrite Hj.
  - intros Hm Hp body Hj Hbad. rewrite fetch_redeem by done. unfold redeem_route. rewrite Hj.
    destruct (b_solutions body); [|done]. by destruct Hbad as [-> | ?].
  - intros Hm Hp Hj. rewrite fetch_validate by done. unfold validate_route. by rewrite Hj.
  - intros Hm Hp body Hj Hbad. rewrite fetch_validate by done. unfold validate_route.
    by rewrite Hj, Hbad.
Qed.

(** The redeem route on a request that has a token and solutions. *)
Lemma redeem_route_run meanwhile token solutions w :
  token ≠ "" →
  serve meanwhile (redeem_request token solutions) w =
    match getChallenge token w with
    | (Returned (Some challenge), w1) =>
        let result := cap_redeemChallenge (clock (meanwhile w1)) challenge solutions in
        let answer := mkResponse 200 json_headers (JsonText (json_of_result result)) in
        if issues_token result then
          match hashToken (default "" (r_token result)) with
          | Returned tokenHash =>
              match finalizeRedeem token tokenHash
                      (StoredToken.Build_t (default 0 (r_expires result))) (meanwhile w1) with
              | (Returned _, w2) => (Returned answer, w2)
              | (Threw e, w2) => (Returned (redeem_catch e), w2)
              end
          | Threw e => (Threw e, meanwhile w1)
          end
        else (Returned answer, meanwhile w1)
    | (Returned None, w1) => (Returned (failure 404 "Challenge not found"), w1)
    | (Threw e, w1) => (Threw e, w1)
    end.
Proof.
  intros Hne. rewrite fetch_redeem by done. unfold redeem_route, redeem_request; cbn.
  destruct token as [|ch token]; [done|]. cbn [falsy String.eqb default from_option id].
  unfold mbind, Js_bind, bind at 1.
  destruct (getChallenge (String ch token) w) as [[[challenge|]|e] w1]; [|done..].
  unfold verifyChallengeSolution, bind, modifies, Date_now, reads, mbind, Js_bind,
    bind, mret, Js_ret, ret, issues_token.
  destruct (success _ && _ && _); [|done].
  unfold settled, try_catch.
  destruct (hashToken _) as [tokenHash|e]; [|done].
  by destruct (finalizeRedeem _ _ _ _) as [[[]|e] w2].
Qed.


(** X6. When the collaborator does not issue a token (the solution is
    rejected, or its answer lacks the token or the expiry), the redeem
    route answers 200 with the collaborator's answer as the body and makes
    no write: the challenge is still there, to be tried again. *)
Theorem rejected_solution_keeps_the_challenge meanwhile token solutions challenge (w : World) :
  quiet w → token ≠ "" → storage w !! challenge_key token = Some challenge →
  issues_token (cap_redeemChallenge (clock (meanwhile w)) challenge solutions) = false →
  serve meanwhile (redeem_request token solutions) w
    = (Returned (mkResponse 200 json_headers
                   (JsonText (json_of_result
                      (cap_redeemChallenge (clock (meanwhile w)) challenge solutions)))),
       meanwhile w).
Proof.
  intros Hq Hne Hsome Hno. rewrite redeem_route_run, getChallenge_quiet by done.
  rewrite Hsome. cbn zeta. by rewrite Hno.
Qed.

(** X7. The life of a challenge on a quiet store, with no other request
    in between: redeeming it with a solution the collaborator accepts is
    answered 200 with the collaborator's answer; validating the token
    issued then succeeds; validating it again is answered 404 "Token not
    found"; and redeeming the challenge again is answered 404 "Challenge
    not found". *)
Theorem challenge_is_redeemed_once_and_its_token_used_once token solutions challenge
    (result : RedeemResult) (newToken tokenHash : string) (newExpiry now : Z) (w : World) :
  quiet w → token ≠ "" → storage w !! challenge_key token = Some challenge →
  now ≤ expires_of challenge →
  cap_redeemChallenge now challenge solutions = result →
  success result = true → r_token result = Some newToken →
  r_expires result = Some newExpiry → newExpiry ≠ 0 → now ≤ newExpiry →
  hashToken newToken = Returned tokenHash →
  (serially [ (now, serve id (redeem_request token solutions));
              (now, serve id (validate_request newToken None));
              (now, serve id (validate_request newToken None));
              (now, serve id (redeem_request token solutions)) ] w).1
    = [ Returned (mkResponse 200 json_headers (JsonText (json_of_result result)));
        Returned success_response;
        Returned (failure 404 "Token not found");
        Returned (failure 404 "Challenge not found") ].
Proof.
  intros Hq Hne Hsome Hle Hres Hsucc Htok Hexp Hnz Hle' Hh.
  assert (issues_token result = true) as Hissue.
  { unfold issues_token. rewrite Hsucc, Htok, Hexp. cbn.
    apply hashToken_returned_nonempty in Hh as Hne'. cbn in Hne'. rewrite Hne'.
    by destruct (Z.eqb_spec newExpiry 0). }
  destruct w as [st al cl co fs]. unfold quiet in Hq; cbn in Hq, Hsome; subst fs.
  set (st2 := <[token_key tokenHash := TokenRec (StoredToken.Build_t newExpiry)]>
                (delete (challenge_key token) st)).
  set (w1 := mkWorld st al now co []).
  set (w2 := mkWorld st2 al now co []).
  set (w3 := mkWorld (delete (token_key tokenHash) st2) al now co []).
  assert (serve id (redeem_request token solutions) w1
            = (Returned (mkResponse 200 json_headers (JsonText (json_of_result result))), w2))
    as Hrun1.
  { rewrite redeem_route_run, getChallenge_quiet by done. cbn [storage w1].
    rewrite Hsome. cbn zeta. cbn [id clock w1]. rewrite Hres, Hissue, Htok, Hexp.
    cbn [default from_option id]. rewrite Hh, finalizeRedeem_quiet by done.
    cbn [storage clock w1]. rewrite Hsome. unfold expired.
    by destruct (Z.ltb_spec (expires_of challenge) now); [lia|]. }
  assert (serve id (validate_request newToken None) w2 = (Returned success_response, w3))
    as Hrun2.
  { destruct (validate_quiet_consume cap_createChallenge cap_redeemChallenge id
                newToken tokenHash None (TokenRec (StoredToken.Build_t newExpiry)) w2)
      as [_ Hrun]; [done|done|done| |done|exact Hrun].
    apply lookup_insert_eq. }
  assert (serve id (validate_request newToken None) w3
            = (Returned (failure 404 "Token not found"), w3)) as Hrun3.
  { destruct (validate_quiet_absent cap_createChallenge cap_redeemChallenge id
                newToken tokenHash None w3) as [_ Hrun]; [done|done| |exact Hrun].
    apply lookup_delete_eq. }
  assert (serve id (redeem_request token solutions) w3
            = (Returned (failure 404 "Challenge not found"), w3)) as Hrun4.
  { rewrite redeem_route_run, getChallenge_quiet by done. cbn [storage w3]. unfold st2.
    rewrite lookup_delete_ne by (symmetry; apply challenge_key_not_token_key).
    rewrite lookup_insert_ne by (symmetry; apply challenge_key_not_token_key).
    by rewrite lookup_delete_eq. }
  cbn [serially].
  change (with_clock now (mkWorld st al cl co [])) with w1. rewrite Hrun1.
  change (with_clock now w2) with w2. rewrite Hrun2.
  change (with_clock now w3) with w3. rewrite Hrun3.
  change (with_clock now w3) with w3. by rewrite Hrun4.
Qed.



(** X10. Whatever the request, the collaborator, the other requests and
    the faults of the back end, an answer the Worker returns carries the
    three CORS headers and has status 200, 400, 404, 409 or 410. *)
Theorem every_answer_is_well_formed meanwhile (request : Request) (w w' : World)
    (response : Response) :
  serve meanwhile request w = (Returned response, w') → well_formed_response response.
Proof.
  assert (triple (λ _, True) (serve meanwhile request)
            (λ r _, well_formed_response r) (λ _ _, True)) as Hfetch.
  { unfold fetch. repeat case_match.
    - apply triple_ret. intros _ _. split; cbn; [done|by left].
    - unfold challenge_route. eapply triple_bind; [apply triple_top|]. intros challenge.
      eapply triple_bind; [apply triple_top|]. intros ?. apply triple_ret.
      intros _ _. apply well_formed_json.
    - unfold redeem_route. destruct (json request) as [body|];
        [|apply triple_ret; intros _ _; apply well_formed_failure; solve_elem_of].
      destruct (b_solutions body) as [solutions|];
        [|apply triple_ret; intros _ _; apply well_formed_failure; solve_elem_of].
      destruct (falsy (b_token body));
        [apply triple_ret; intros _ _; apply well_formed_failure; solve_elem_of|].
      eapply triple_bind; [apply triple_top|]. intros [challenge|];
        [|apply triple_ret; intros _ _; apply well_formed_failure; solve_elem_of].
      eapply triple_bind; [apply triple_top|]. intros ?.
      eapply triple_bind; [apply triple_top|]. intros result.
      destruct (success result && _ && _);
        [|apply triple_ret; intros _ _; apply well_formed_json].
      eapply triple_bind; [apply triple_top|]. intros tokenHash.
      eapply triple_try_catch with (E := λ _ _, True).
      + eapply triple_bind; [apply triple_top|]. intros ?. apply triple_ret.
        intros _ _. apply well_formed_json.
      + intros e. apply triple_ret. intros _ _. apply well_formed_redeem_catch.
    - unfold validate_route. destruct (json request) as [body|];
        [|apply triple_ret; intros _ _; apply well_formed_failure; solve_elem_of].
      destruct (falsy (b_token body));
        [apply triple_ret; intros _ _; apply well_formed_failure; solve_elem_of|].
      eapply triple_bind; [apply triple_top|]. intros tokenHash.
      eapply triple_try_catch with (E := λ _ _, True).
      + eapply triple_bind; [apply triple_top|]. intros ?. apply triple_ret.
        intros _ _. apply well_formed_json.
      + intros e. apply triple_ret. intros _ _. apply well_formed_validate_catch.
    - apply triple_ret. intros _ _. split; cbn; [done|solve_elem_of]. }
  intros Hrun. specialize (Hfetch w I). by rewrite Hrun in Hfetch.
Qed.

(** X11. On a quiet store the challenge route answers 200 with the
    challenge the collaborator created; when that challenge has a
    non-empty token it is stored under it, so that [getChallenge] finds it,
    and otherwise nothing is stored. *)
Theorem created_challenge_is_stored meanwhile (request : Request) (w : World) :
  quiet w → method request = "POST" → pathname request = CHALLENGE_PATH →
  ∃ w', serve meanwhile request w
          = (Returned (mkResponse 200 json_headers
                         (JsonText (json_of_challenge (cap_createChallenge (clock w))))), w') ∧
    (falsy (cc_token (cap_createChallenge (clock w))) = true → w' = w) ∧
    (∀ token, cc_token (cap_createChallenge (clock w)) = Some token → token ≠ "" →
       let stored := ChallengeRec (Challenge.Build_t (cc_challenge (cap_createChallenge (clock w)))
                                     token (cc_expires (cap_createChallenge (clock w)))) in
       storage w' = <[challenge_key token := stored]> (storage w) ∧
       getChallenge token w' = (Returned (Some stored), w')).
Proof.
  intros Hq Hm Hp. unfold fetch. rewrite Hm, Hp.
  change (String.eqb "POST" "OPTIONS") with false.
  change (String.eqb "POST" "POST" && String.eqb CHALLENGE_PATH CHALLENGE_PATH) with true.
  cbn match. destruct w as [st al cl co fs]. unfold quiet in Hq; cbn in Hq; subst fs.
  unfold challenge_route, createChallenge, storeChallenge, getChallenge. js_unfold. cbn.
  destruct (cc_token (cap_createChallenge cl)) as [tok|]; cbn;
    [destruct (String.eqb_spec tok ""); cbn|].
  - eexists. split; [done|]. split; [done|]. by intros token [= <-].
  - eexists. split; [done|]. split; [done|]. intros token [= <-] _. cbn.
    split; [done|]. by rewrite lookup_insert_eq.
  - eexists. by split.
Qed.

(** X12. On a quiet store, with no other request in between, of the
    redemptions of one challenge run one after the other the first (with a
    solution the collaborator accepts) is answered with the token, and
    every later one, at whatever time and with whatever solutions, is
    answered 404 "Challenge not found". *)
Theorem challenge_is_redeemed_at_most_once token solutions challenge
    (result : RedeemResult) (newToken tokenHash : string) (newExpiry now : Z)
    (later : list (Z * list Z)) (w : World) :
  quiet w → token ≠ "" → storage w !! challenge_key token = Some challenge →
  now ≤ expires_of challenge →
  cap_redeemChallenge now challenge solutions = result →
  issues_token result = true → r_token result = Some newToken →
  r_expires result = Some newExpiry → hashToken newToken = Returned tokenHash →
  (serially ((now, serve id (redeem_request token solutions)) ::
             ((λ ts, (ts.1, serve id (redeem_request token ts.2))) <$> later)) w).1
    = Returned (mkResponse 200 json_headers (JsonText (json_of_result result))) ::
      ((λ _, Returned (failure 404 "Challenge not found")) <$> later).
Proof.
  intros Hq Hne Hsome Hle Hres Hissue Htok Hexp Hh.
  destruct w as [st al cl co fs]. unfold quiet in Hq; cbn in Hq, Hsome; subst fs.
  set (st2 := <[token_key tokenHash := TokenRec (StoredToken.Build_t newExpiry)]>
                (delete (challenge_key token) st)).
  set (w1 := mkWorld st al now co []).
  set (w2 := mkWorld st2 al now co []).
  assert (serve id (redeem_request token solutions) w1
            = (Returned (mkResponse 200 json_headers (JsonText (json_of_result result))), w2))
    as Hrun1.
  { rewrite redeem_route_run, getChallenge_quiet by done. cbn [storage w1].
    rewrite Hsome. cbn zeta. cbn [id clock w1]. rewrite Hres, Hissue, Htok, Hexp.
    cbn [default from_option id]. rewrite Hh, finalizeRedeem_quiet by done.
    cbn [storage clock w1]. rewrite Hsome. unfold expired.
    by destruct (Z.ltb_spec (expires_of challenge) now); [lia|]. }
  cbn [serially]. change (with_clock now (mkWorld st al cl co [])) with w1. rewrite Hrun1.
  assert (∀ w', quiet w' ∧ storage w' !! challenge_key token = None →
            (serially ((λ ts, (ts.1, serve id (redeem_request token ts.2))) <$> later) w').1
              = (λ _, Returned (failure 404 "Challenge not found")) <$> later) as Hrest.
  { clear -Hne. induction later as [|[t sols] later IH]; intros w' [Hq Hnone]; [done|].
    cbn [fmap list_fmap serially fst snd].
    rewrite redeem_route_run, getChallenge_quiet by done. cbn [storage with_clock].
    rewrite Hnone.
    specialize (IH (with_clock t w') ltac:(done)).
    destruct (serially _ (with_clock t w')) as [rs w'']. cbn in *. by rewrite IH. }
  specialize (Hrest w2). destruct (serially _ w2) as [rs w'']. cbn in *. rewrite Hrest; [done|].
  split; [done|]. unfold st2.
  rewrite lookup_insert_ne by (symmetry; apply challenge_key_not_token_key).
  apply lookup_delete_eq.
Qed.

End Paths.

(** *** The same paths on sample requests *)

Lemma refused_requests_leave_the_world_alone_witness :
  fetch sample_createChallenge sample_redeemChallenge rival
    (mkRequest "OPTIONS" "/anything" None) flaky_world
    = (Returned (mkResponse 200 CORS_HEADERS NoBody), flaky_world) ∧
  fetch sample_createChallenge sample_redeemChallenge rival
    (mkRequest "GET" CHALLENGE_PATH None) flaky_world
    = (Returned (mkResponse 404 CORS_HEADERS (Text "Not Found")), flaky_world) ∧
  fetch sample_createChallenge sample_redeemChallenge rival
    (mkRequest "POST" REDEEM_PATH (Some (mkBody (Some "a") None None))) flaky_world
    = (Returned (failure 400 "Missing token or solutions"), flaky_world) ∧
  fetch sample_createChallenge sample_redeemChallenge rival
    (mkRequest "POST" VALIDATE_PATH (Some (mkBody (Some "") None None))) flaky_world
    = (Returned (failure 400 "Missing token"), flaky_world).
Proof.
  split_and!.
  - apply (proj1 (refused_requests_leave_the_world_alone sample_createChallenge
                    sample_redeemChallenge rival (mkRequest "OPTIONS" "/anything" None)
                    flaky_world)).
    reflexivity.
  - apply (proj1 (proj2 (refused_requests_leave_the_world_alone sample_createChallenge
                    sample_redeemChallenge rival (mkRequest "GET" CHALLENGE_PATH None)
                    flaky_world))).
    + simpl. discriminate.
    + reflexivity.
  - apply (proj1 (proj2 (proj2 (proj2 (refused_requests_leave_the_world_alone
                    sample_createChallenge sample_redeemChallenge rival
                    (mkRequest "POST" REDEEM_PATH (Some (mkBody (Some "a") None None)))
                    flaky_world))))
             eq_refl eq_refl (mkBody (Some "a") None None) eq_refl).
    right. reflexivity.
  - apply (proj2 (proj2 (proj2 (proj2 (proj2 (refused_requests_leave_the_world_alone
                    sample_createChallenge sample_redeemChallenge rival
                    (mkRequest "POST" VALIDATE_PATH (Some (mkBody (Some "") None None)))
                    flaky_world)))))
             eq_refl eq_refl (mkBody (Some "") None None) eq_refl).
    reflexivity.
Defined.


Lemma rejected_solution_keeps_the_challenge_witness :
  fetch sample_createChallenge rejecting_redeemChallenge id (redeem_request "a" [0])
    early_world
  = (Returned (mkResponse 200 json_headers
                 (JsonText (json_of_result
                    (rejecting_redeemChallenge (clock (id early_world))
                       (ChallengeRec sample_challenge) [0])))),
     id early_world).
Proof.
  apply (rejected_solution_keeps_the_challenge sample_createChallenge
           rejecting_redeemChallenge id "a" [0] (ChallengeRec sample_challenge) early_world).
  - reflexivity.
  - discriminate.
  - reflexivity.
  - reflexivity.
Defined.

Lemma challenge_is_redeemed_once_and_its_token_used_once_witness :
  (serially
     [ (3, fetch sample_createChallenge sample_redeemChallenge id (redeem_request "a" [1; 3; 7]));
       (3, fetch sample_createChallenge sample_redeemChallenge id (validate_request "id:s" None));
       (3, fetch sample_createChallenge sample_redeemChallenge id (validate_request "id:s" None));
       (3, fetch sample_createChallenge sample_redeemChallenge id (redeem_request "a" [1; 3; 7]))
     ] early_world).1
  = [ Returned (mkResponse 200 json_headers
                  (JsonText (json_of_result
                     (sample_redeemChallenge 3 (ChallengeRec sample_challenge) [1; 3; 7]))));
      Returned success_response;
      Returned (failure 404 "Token not found");
      Returned (failure 404 "Challenge not found") ].
Proof.
  apply (challenge_is_redeemed_once_and_its_token_used_once sample_createChallenge
           sample_redeemChallenge "a" [1; 3; 7] (ChallengeRec sample_challenge)
           (sample_redeemChallenge 3 (ChallengeRec sample_challenge) [1; 3; 7])
           "id:s" sample_hash 99 3 early_world).
  all: try reflexivity.
  all: try discriminate.
  all: simpl; lia.
Defined.



Lemma every_answer_is_well_formed_witness :
  well_formed_response (failure 409 "Challenge already redeemed").
Proof.
  apply (every_answer_is_well_formed sample_createChallenge sample_redeemChallenge rival
           (redeem_request "a" [1; 3; 7]) early_world (rival early_world)).
  vm_compute. reflexivity.
Defined.

Lemma created_challenge_is_stored_witness :
  ∃ w', fetch sample_createChallenge sample_redeemChallenge id
          (mkRequest "POST" CHALLENGE_PATH None) issued_world
          = (Returned (mkResponse 200 json_headers
                         (JsonText (json_of_challenge
                            (sample_createChallenge (clock issued_world))))), w') ∧
    (falsy (cc_token (sample_createChallenge (clock issued_world))) = true →
       w' = issued_world) ∧
    (∀ token, cc_token (sample_createChallenge (clock issued_world)) = Some token →
       token ≠ "" →
       let stored := ChallengeRec
                       (Challenge.Build_t
                          (cc_challenge (sample_createChallenge (clock issued_world)))
                          token (cc_expires (sample_createChallenge (clock issued_world)))) in
       storage w' = <[challenge_key token := stored]> (storage issued_world) ∧
       getChallenge token w' = (Returned (Some stored), w')).
Proof.
  apply (created_challenge_is_stored sample_createChallenge sample_redeemChallenge id
           (mkRequest "POST" CHALLENGE_PATH None) issued_world).
  - reflexivity.
  - reflexivity.
  - reflexivity.
Defined.

Lemma challenge_is_redeemed_at_most_once_witness :
  (serially
     ((3, fetch sample_createChallenge sample_redeemChallenge id (redeem_request "a" [1; 3; 7]))
      :: ((λ ts : Z * list Z,
             (ts.1, fetch sample_createChallenge sample_redeemChallenge id
                      (redeem_request "a" ts.2))) <$> [(3, [1; 3; 7]); (4, [2])]))
     early_world).1
  = Returned (mkResponse 200 json_headers
                (JsonText (json_of_result
                   (sample_redeemChallenge 3 (ChallengeRec sample_challenge) [1; 3; 7]))))
    :: ((λ _, Returned (failure 404 "Challenge not found")) <$> [(3, [1; 3; 7]); (4, [2])]).
Proof.
  apply (challenge_is_redeemed_at_most_once sample_createChallenge sample_redeemChallenge
           "a" [1; 3; 7] (ChallengeRec sample_challenge)
           (sample_redeemChallenge 3 (ChallengeRec sample_challenge) [1; 3; 7])
           "id:s" sample_hash 99 3 [(3, [1; 3; 7]); (4, [2])] early_world).
  all: try reflexivity.
  all: try discriminate.
  all: simpl; lia.
Defined.

(** ** More on the garbage collector *)

Lemma sweepable_later t1 t2 kv : t1 ≤ t2 → sweepable t1 kv → sweepable t2 kv.
Proof. intros Hle [Hp Hlt]. split; [done|lia]. Qed.



(** X14. On a quiet store, a tick followed by a later tick leaves the
    records a single tick at the later time leaves, and after a tick no
    record that was due at its time is left. *)
Theorem later_tick_subsumes_earlier (t1 t2 : Z) (w : World) :
  quiet w → t1 ≤ t2 →
  storage (serially [(t1, alarm); (t2, alarm)] w).2 = storage (serially [(t2, alarm)] w).2 ∧
  (∀ k v, storage (serially [(t2, alarm)] w).2 !! k = Some v → ¬ sweepable t2 (k, v)) ∧
  alarmTime (serially [(t1, alarm); (t2, alarm)] w).2 = Some (t2 + CLEANUP_INTERVAL_MS).
Proof.
  intros Hq Hle. destruct w as [st al cl co fs]. unfold quiet in Hq; cbn in Hq; subst fs.
  cbn [serially]. rewrite !alarm_quiet by done. cbn. split; [|split; [|done]].
  - rewrite map_filter_filter. apply map_filter_ext. intros k v _.
    split; [tauto|]. intros Hns. split; [done|]. intros Hs. apply Hns.
    by eapply sweepable_later.
  - by intros k v [_ ?]%map_lookup_filter_Some.
Qed.

Lemma later_tick_subsumes_earlier_witness :
  storage (serially [(7, alarm); (60, alarm)] mixed_world).2
    = storage (serially [(60, alarm)] mixed_world).2 ∧
  (∀ k v, storage (serially [(60, alarm)] mixed_world).2 !! k = Some v →
     ¬ sweepable 60 (k, v)) ∧
  alarmTime (serially [(7, alarm); (60, alarm)] mixed_world).2
    = Some (60 + CLEANUP_INTERVAL_MS).
Proof.
  apply (later_tick_subsumes_earlier 7 60 mixed_world).
  - reflexivity.
  - lia.
Defined.

(** X15. As long as the back end does not refuse [setAlarm], every tick
    of a run of ticks returns, whatever else fails, and after the run the
    next tick is armed at the time of the last one plus the interval: the
    sweep does not stop. *)
Theorem ticks_keep_rescheduling (earlier : list Z) (last_tick : Z) (w : World) :
  Forall (λ f : Fault, f OpSetAlarm = None) (faults w) →
  (serially ((λ t, (t, alarm)) <$> (earlier ++ [last_tick])%list) w).1
    = (λ _, Returned tt) <$> (earlier ++ [last_tick])%list ∧
  alarmTime (serially ((λ t, (t, alarm)) <$> (earlier ++ [last_tick])%list) w).2
    = Some (last_tick + CLEANUP_INTERVAL_MS).
Proof.
  assert (∀ t w0, Forall (λ f : Fault, f OpSetAlarm = None) (faults w0) →
            ∃ w', alarm (with_clock t w0) = (Returned tt, w') ∧
                  alarmTime w' = Some (t + CLEANUP_INTERVAL_MS) ∧
                  Forall (λ f : Fault, f OpSetAlarm = None) (faults w')) as Hstep.
  { intros t w0 Hf.
    pose proof (triple_alarm (with_clock t w0) (with_clock t w0) (conj eq_refl Hf)) as Hrun.
    destruct (alarm (with_clock t w0)) as [[[]|e] w']; [|done].
    destruct Hrun as [(_ & _ & _ & Hf') Hal]. eauto. }
  revert w. induction earlier as [|t earlier IH]; intros w Hf.
  - cbn [app fmap list_fmap serially]. destruct (Hstep last_tick w Hf) as (w' & -> & Hal & _).
    by cbn.
  - cbn [app fmap list_fmap serially]. destruct (Hstep t w Hf) as (w' & -> & _ & Hf').
    destruct (IH w' Hf') as [IH1 IH2].
    destruct (serially _ w') as [rs w'']. cbn in *. by rewrite IH1.
Qed.

Lemma ticks_keep_rescheduling_witness :
  (serially ((λ t, (t, alarm)) <$> ([10; 20] ++ [30])%list)
     (with_faults [only_setAlarm_works; refuses_delete] late_world)).1
    = (λ _, Returned tt) <$> ([10; 20] ++ [30])%list ∧
  alarmTime (serially ((λ t, (t, alarm)) <$> ([10; 20] ++ [30])%list)
               (with_faults [only_setAlarm_works; refuses_delete] late_world)).2
    = Some (30 + CLEANUP_INTERVAL_MS).
Proof.
  apply (ticks_keep_rescheduling [10; 20] 30
           (with_faults [only_setAlarm_works; refuses_delete] late_world)).
  repeat constructor.
Defined.

(** ** The shape of the store is kept *)

Lemma well_keyed_delete k m : well_keyed m → well_keyed (delete k m).
Proof. intros Hm k' v [_ ?]%lookup_delete_Some. by apply Hm. Qed.

Lemma well_keyed_insert_challenge token c m :
  well_keyed m → well_keyed (<["challenge:" +:+ token := ChallengeRec c]> m).
Proof.
  intros Hm k v [[<- <-]|[_ ?]]%lookup_insert_Some; [|by apply Hm].
  apply string_prefix_app.
Qed.

Lemma well_keyed_insert_token tokenHash t m :
  well_keyed m → well_keyed (<["token:" +:+ tokenHash := TokenRec t]> m).
Proof.
  intros Hm k v [[<- <-]|[_ ?]]%lookup_insert_Some; [|by apply Hm].
  apply string_prefix_app.
Qed.

Lemma keeps_shape_run {A} (m : Js A) w :
  keeps_shape m → well_keyed (storage w) → well_keyed (storage (m w).2).
Proof. intros Hm Hw. specialize (Hm w Hw). by destruct (m w) as [[a|e] w']. Qed.

Lemma keeps_shape_ret {A} (a : A) : keeps_shape (mret a).
Proof. by apply triple_ret. Qed.

Lemma keeps_shape_bind {A B} (m : Js A) (k : A → Js B) :
  keeps_shape m → (∀ a, keeps_shape (k a)) → keeps_shape (m ≫= k).
Proof. intros Hm Hk. eapply triple_bind; [apply Hm|apply Hk]. Qed.

Lemma keeps_shape_try_catch {A} (body : Js A) handler :
  keeps_shape body → (∀ e, keeps_shape (handler e)) → keeps_shape (try_catch body handler).
Proof. intros Hb Hh. eapply triple_try_catch; [apply Hb|apply Hh]. Qed.

Lemma keeps_shape_for_of {A} (xs : list A) body :
  (∀ x, keeps_shape (body x)) → keeps_shape (for_of xs body).
Proof. intros Hb. apply triple_for_of. intros x _. apply Hb. Qed.

Lemma keeps_shape_call op : keeps_shape (storage_call op).
Proof. apply triple_storage_call. by intros [] fs. Qed.

Lemma keeps_shape_reads {A} (f : World → A) : keeps_shape (reads f).
Proof. by intros w Hw. Qed.

Lemma keeps_shape_settled {A} (r : Completion A) : keeps_shape (settled r).
Proof. intros w Hw. unfold settled. by destruct r. Qed.

Lemma keeps_shape_throw {A} e : keeps_shape (@throw A e).
Proof. by intros w Hw. Qed.

Lemma keeps_shape_modifies f :
  (∀ w, well_keyed (storage w) → well_keyed (storage (f w))) → keeps_shape (modifies f).
Proof. intros Hf. by apply triple_modifies. Qed.

Lemma keeps_shape_get k : keeps_shape (storage_get k).
Proof. apply keeps_shape_bind; [apply keeps_shape_call|]. intros ?. apply keeps_shape_reads. Qed.

Lemma keeps_shape_delete k : keeps_shape (storage_delete k).
Proof.
  apply keeps_shape_bind; [apply keeps_shape_call|]. intros ?.
  apply keeps_shape_modifies. intros [] ?. by apply well_keyed_delete.
Qed.

Lemma keeps_shape_setAlarm t : keeps_shape (storage_setAlarm t).
Proof.
  apply keeps_shape_bind; [apply keeps_shape_call|]. intros ?.
  apply keeps_shape_modifies. by intros [].
Qed.

Lemma keeps_shape_transaction {A} (closure : Js A) :
  keeps_shape closure → keeps_shape (transaction closure).
Proof.
  intros Hc w Hw. specialize (Hc w Hw). unfold transaction.
  destruct (closure w) as [[a|e] w1]; [|by destruct w1].
  destruct (storage_call_frame OpCommit w1) as (r & fs & -> & _).
  destruct r; by destruct w1.
Qed.

Lemma keeps_shape_storeChallenge token c : keeps_shape (storeChallenge token c).
Proof.
  apply keeps_shape_bind; [apply keeps_shape_call|]. intros ?.
  apply keeps_shape_modifies. intros [] ?. by apply well_keyed_insert_challenge.
Qed.

Lemma keeps_shape_finalizeRedeem token tokenHash tokenData :
  keeps_shape (finalizeRedeem token tokenHash tokenData).
Proof.
  apply keeps_shape_transaction.
  apply keeps_shape_bind; [apply keeps_shape_get|]. intros [existing|];
    [|apply keeps_shape_throw].
  apply keeps_shape_bind; [apply keeps_shape_reads|]. intros now.
  destruct (expired existing now).
  - apply keeps_shape_bind; [apply keeps_shape_delete|]. intros ?. apply keeps_shape_throw.
  - apply keeps_shape_bind; [apply keeps_shape_delete|]. intros ?.
    apply keeps_shape_bind; [apply keeps_shape_call|]. intros ?.
    apply keeps_shape_modifies. intros [] ?. by apply well_keyed_insert_token.
Qed.

Lemma keeps_shape_validateAndConsumeToken tokenHash keepToken :
  keeps_shape (validateAndConsumeToken tokenHash keepToken).
Proof.
  apply keeps_shape_transaction.
  apply keeps_shape_bind; [apply keeps_shape_get|]. intros [tokenData|];
    [|apply keeps_shape_throw].
  apply keeps_shape_bind; [apply keeps_shape_reads|]. intros now.
  destruct (expired tokenData now).
  - apply keeps_shape_bind; [apply keeps_shape_delete|]. intros ?. apply keeps_shape_throw.
  - destruct (negb _); [apply keeps_shape_delete|apply keeps_shape_ret].
Qed.

Lemma keeps_shape_sweep now entries : keeps_shape (sweep now entries).
Proof.
  apply keeps_shape_for_of. intros [k v]. cbn.
  destruct (expired v now); [apply keeps_shape_delete|apply keeps_shape_ret].
Qed.

Lemma keeps_shape_list p : keeps_shape (storage_list p).
Proof. apply keeps_shape_bind; [apply keeps_shape_call|]. intros ?. apply keeps_shape_reads. Qed.

Lemma keeps_shape_alarm : keeps_shape alarm.
Proof.
  apply keeps_shape_try_catch.
  - apply keeps_shape_bind; [apply keeps_shape_reads|]. intros now.
    apply keeps_shape_bind; [apply keeps_shape_list|]. intros challenges.
    apply keeps_shape_bind; [apply keeps_shape_sweep|]. intros ?.
    apply keeps_shape_bind; [apply keeps_shape_list|]. intros tokens.
    apply keeps_shape_bind; [apply keeps_shape_sweep|]. intros ?.
    apply keeps_shape_bind; [apply keeps_shape_reads|]. intros t.
    apply keeps_shape_setAlarm.
  - intros e. apply keeps_shape_bind; [apply keeps_shape_modifies; by intros []|]. intros ?.
    apply keeps_shape_bind; [apply keeps_shape_reads|]. intros t.
    apply keeps_shape_setAlarm.
Qed.

Lemma keeps_shape_initializing : keeps_shape initializing.
Proof.
  apply keeps_shape_bind.
  { apply keeps_shape_bind; [apply keeps_shape_call|]. intros ?. apply keeps_shape_reads. }
  assert (keeps_shape (now ← Date_now; storage_setAlarm (now + CLEANUP_INTERVAL_MS))) as Harm.
  { apply keeps_shape_bind; [apply keeps_shape_reads|]. intros now. apply keeps_shape_setAlarm. }
  intros [scheduled|]; [|done]. destruct (scheduled =? 0); [done|apply keeps_shape_ret].
Qed.

Lemma keeps_shape_fetch cap_createChallenge cap_redeemChallenge meanwhile request :
  (∀ w, well_keyed (storage w) → well_keyed (storage (meanwhile w))) →
  keeps_shape (fetch cap_createChallenge cap_redeemChallenge meanwhile request).
Proof.
  intros Hmw. unfold fetch. repeat case_match; try apply keeps_shape_ret.
  - unfold challenge_route.
    apply keeps_shape_bind.
    { apply keeps_shape_bind; [apply keeps_shape_reads|]. intros ?. apply keeps_shape_ret. }
    intros challenge. apply keeps_shape_bind; [|intros ?; apply keeps_shape_ret].
    destruct (falsy _); [apply keeps_shape_ret|apply keeps_shape_storeChallenge].
  - unfold redeem_route. destruct (json request) as [body|]; [|apply keeps_shape_ret].
    destruct (b_solutions body) as [solutions|]; [|apply keeps_shape_ret].
    destruct (falsy (b_token body)); [apply keeps_shape_ret|].
    apply keeps_shape_bind; [apply keeps_shape_get|]. intros [challenge|];
      [|apply keeps_shape_ret].
    apply keeps_shape_bind; [by apply keeps_shape_modifies|]. intros ?.
    apply keeps_shape_bind.
    { apply keeps_shape_bind; [apply keeps_shape_reads|]. intros ?. apply keeps_shape_ret. }
    intros result. destruct (success result && _ && _); [|apply keeps_shape_ret].
    apply keeps_shape_bind; [apply keeps_shape_settled|]. intros tokenHash.
    apply keeps_shape_try_catch; [|intros e; apply keeps_shape_ret].
    apply keeps_shape_bind; [apply keeps_shape_finalizeRedeem|]. intros ?.
    apply keeps_shape_ret.
  - unfold validate_route. destruct (json request) as [body|]; [|apply keeps_shape_ret].
    destruct (falsy (b_token body)); [apply keeps_shape_ret|].
    apply keeps_shape_bind; [apply keeps_shape_settled|]. intros tokenHash.
    apply keeps_shape_try_catch; [|intros e; apply keeps_shape_ret].
    apply keeps_shape_bind; [apply keeps_shape_validateAndConsumeToken|]. intros ?.
    apply keeps_shape_ret.
Qed.

(** X16. Every entry point keeps challenge records under ["challenge:"]
    keys and token records under ["token:"] keys, whatever the back end
    raises and however the call ends (the other requests doing the same);
    and in such a store what [getChallenge] finds is a challenge record. *)
Theorem store_stays_well_keyed cap_createChallenge cap_redeemChallenge meanwhile (w : World) :
  (∀ w0, well_keyed (storage w0) → well_keyed (storage (meanwhile w0))) →
  well_keyed (storage w) →
  well_keyed (storage (initializing w).2) ∧
  well_keyed (storage (alarm w).2) ∧
  (∀ token challengeData, well_keyed (storage (storeChallenge token challengeData w).2)) ∧
  (∀ token tokenHash tokenData,
     well_keyed (storage (finalizeRedeem token tokenHash tokenData w).2)) ∧
  (∀ tokenHash keepToken,
     well_keyed (storage (validateAndConsumeToken tokenHash keepToken w).2)) ∧
  (∀ request,
     well_keyed (storage (fetch cap_createChallenge cap_redeemChallenge meanwhile request w).2)) ∧
  (∀ token found w', getChallenge token w = (Returned (Some found), w') →
     ∃ challengeData, found = ChallengeRec challengeData).
Proof.
  intros Hmw Hw. split_and!; intros.
  - by apply keeps_shape_run; [apply keeps_shape_initializing|].
  - by apply keeps_shape_run; [apply keeps_shape_alarm|].
  - by apply keeps_shape_run; [apply keeps_shape_storeChallenge|].
  - by apply keeps_shape_run; [apply keeps_shape_finalizeRedeem|].
  - by apply keeps_shape_run; [apply keeps_shape_validateAndConsumeToken|].
  - by apply keeps_shape_run; [apply keeps_shape_fetch|].
  - revert H. unfold getChallenge, storage_get, mbind, Js_bind, bind, reads.
    destruct (storage_call_frame OpGet w) as (r & fs & -> & _).
    destruct r as [[]|e]; [|done]. intros [= Hfound _].
    destruct w as [st al cl co fs0]; cbn in *. apply Hw in Hfound.
    destruct found as [c|t]; [by eexists|]. discriminate Hfound.
Qed.

Lemma store_stays_well_keyed_witness :
  well_keyed (storage (initializing flaky_world).2) ∧
  well_keyed (storage (alarm flaky_world).2) ∧
  (∀ token challengeData, well_keyed (storage (storeChallenge token challengeData flaky_world).2)) ∧
  (∀ token tokenHash tokenData,
     well_keyed (storage (finalizeRedeem token tokenHash tokenData flaky_world).2)) ∧
  (∀ tokenHash keepToken,
     well_keyed (storage (validateAndConsumeToken tokenHash keepToken flaky_world).2)) ∧
  (∀ request,
     well_keyed (storage (fetch sample_createChallenge sample_redeemChallenge rival request
                            flaky_world).2)) ∧
  (∀ token found w', getChallenge token flaky_world = (Returned (Some found), w') →
     ∃ challengeData, found = ChallengeRec challengeData).
Proof.
  apply (store_stays_well_keyed sample_createChallenge sample_redeemChallenge rival flaky_world).
  - intros w0 Hw0. unfold rival.
    exact (keeps_shape_run _ w0 (keeps_shape_finalizeRedeem "a" "rival:hash" fresh_token) Hw0).
  - intros k v. unfold flaky_world, sample_storage. simpl.
    rewrite lookup_insert_Some, lookup_insert_Some, lookup_empty.
    intros [[<- <-]|[_ [[<- <-]|[_ ?]]]]; [reflexivity|reflexivity|discriminate].
Defined.

(** ** More on hashToken *)

(** X17. The hexadecimal text the code builds from bytes has two digits
    per byte and can be read back: different byte sequences never give the
    same text. *)
Theorem hex_round_trip (bytes : list Z) :
  Forall is_byte bytes →
  unhex (hex bytes) = Some bytes ∧
  String.length (hex bytes) = (2 * length bytes)%nat ∧
  (∀ other, Forall is_byte other → hex other = hex bytes → other = bytes).
Proof.
  intros Hb. destruct (hex_spec bytes Hb) as (Hlen & _ & Hun). split; [done|]. split; [done|].
  intros other Ho Heq. destruct (hex_spec other Ho) as (_ & _ & Hun').
  rewrite Heq, Hun in Hun'. by injection Hun'.
Qed.

Lemma hex_round_trip_witness :
  unhex (hex [0; 10; 171; 255]) = Some [0; 10; 171; 255] ∧
  String.length (hex [0; 10; 171; 255]) = (2 * length [0; 10; 171; 255])%nat ∧
  (∀ other, Forall is_byte other → hex other = hex [0; 10; 171; 255] →
     other = [0; 10; 171; 255]).
Proof.
  apply (hex_round_trip [0; 10; 171; 255]).
  repeat constructor; simpl; lia.
Defined.

Lemma before_colon_idem s : before_colon (before_colon s) = before_colon s.
Proof.
  induction s as [|ch s IH]; [done|]. cbn. destruct (Ascii.eqb ch ":") eqn:Hch; [done|].
  cbn. by rewrite Hch, IH.
Qed.

Lemma after_colon_of_key s x : after_colon (before_colon s +:+ ":" +:+ x) = Some x.
Proof.
  induction s as [|ch s IH]; [done|]. cbn. destruct (Ascii.eqb ch ":") eqn:Hch; [done|].
  rewrite string_app_cons. cbn. by rewrite Hch.
Qed.

(** X18. The key [hashToken] returns determines the id and the digest it
    was made from: two tokens get the same key only when their first
    segments are equal and their second segments have the same SHA-256
    digest; and the key starts with the id, up to its first [':']. *)
Theorem stored_key_determines_id_and_digest (token1 token2 key : string) :
  hashToken token1 = Returned key → hashToken token2 = Returned key →
  first_segment token1 = first_segment token2 ∧
  first_segment key = first_segment token1 ∧
  (SHA256.digest ∘ encode) <$> second_segment token1
    = (SHA256.digest ∘ encode) <$> second_segment token2.
Proof.
  assert (∀ token, hashToken token = Returned key →
            ∃ raw, second_segment token = Some raw ∧
                   key = first_segment token +:+ ":" +:+ hex (SHA256.digest (encode raw)))
    as Hshape.
  { intros token. rewrite hashToken_segments.
    destruct (second_segment token) as [raw|]; [|done].
    case_bool_decide; [|done]. intros [= <-]. by exists raw. }
  intros (raw1 & Hs1 & Hk1)%Hshape (raw2 & Hs2 & Hk2)%Hshape.
  assert (first_segment key = first_segment token1) as Hid1.
  { rewrite Hk1. unfold first_segment. by rewrite before_colon_tail, before_colon_idem. }
  assert (first_segment key = first_segment token2) as Hid2.
  { rewrite Hk2. unfold first_segment. by rewrite before_colon_tail, before_colon_idem. }
  split; [by rewrite <- Hid1|]. split; [done|].
  rewrite Hs1, Hs2.
  change (Some (SHA256.digest (encode raw1)) = Some (SHA256.digest (encode raw2))).
  assert (after_colon key = Some (hex (SHA256.digest (encode raw1)))) as Ha1
    by (rewrite Hk1; apply after_colon_of_key).
  assert (after_colon key = Some (hex (SHA256.digest (encode raw2)))) as Ha2
    by (rewrite Hk2; apply after_colon_of_key).
  destruct (hex_spec _ (proj2 (digest_is_32_bytes (encode raw1)))) as (_ & _ & Hun1).
  destruct (hex_spec _ (proj2 (digest_is_32_bytes (encode raw2)))) as (_ & _ & Hun2).
  assert (hex (SHA256.digest (encode raw1)) = hex (SHA256.digest (encode raw2))) as Heq
    by congruence.
  rewrite Heq in Hun1. congruence.
Qed.

Lemma stored_key_determines_id_and_digest_witness :
  first_segment "id:s" = first_segment "id:s:x" ∧
  first_segment sample_hash = first_segment "id:s" ∧
  (SHA256.digest ∘ encode) <$> second_segment "id:s"
    = (SHA256.digest ∘ encode) <$> second_segment "id:s:x".
Proof.
  apply (stored_key_determines_id_and_digest "id:s" "id:s:x" sample_hash).
  - vm_compute. reflexivity.
  - vm_compute. reflexivity.
Defined.

(** ** What leaves the redeem route *)

(** X19. An error leaves the redeem route only from outside its [try]:
    either the existence check itself was refused by the back end, or
    [hashToken] rejected the token the collaborator issued.  Nothing
    [finalizeRedeem] throws reaches the caller. *)
Theorem redeem_throws_only_outside_its_try cap_createChallenge cap_redeemChallenge meanwhile
    token solutions (e : Thrown) (w w' : World) :
  token ≠ "" →
  fetch cap_createChallenge cap_redeemChallenge meanwhile (redeem_request token solutions) w
    = (Threw e, w') →
  getChallenge token w = (Threw e, w') ∨
  (e = JsError "Invalid token format" ∧
   ∃ challenge w1 newToken,
     getChallenge token w = (Returned (Some challenge), w1) ∧ w' = meanwhile w1 ∧
     r_token (cap_redeemChallenge (clock (meanwhile w1)) challenge solutions) = Some newToken ∧
     hashToken newToken = Threw e).
Proof.
  intros Hne. rewrite redeem_route_run by done.
  destruct (getChallenge token w) as [[[challenge|]|e0] w1]; [|done|by intros [= <- <-]; left].
  cbn zeta. destruct (issues_token _) eqn:Hissue; [|done].
  destruct (r_token _) as [newToken|] eqn:Htok.
  - cbn [default from_option id]. destruct (hashToken newToken) as [tokenHash|e0] eqn:Hh.
    + by destruct (finalizeRedeem _ _ _ _) as [[[]|?] ?].
    + intros [= <- <-]. right. split; [by eapply hashToken_throws_invalid|].
      by exists challenge, w1, newToken.
  - unfold issues_token in Hissue. rewrite Htok in Hissue. cbn in Hissue.
    by rewrite andb_false_r in Hissue.
Qed.

Lemma redeem_throws_only_outside_its_try_witness :
  getChallenge "a" (with_faults [only_setAlarm_works] early_world)
    = (Threw (JsError "storage unavailable"), early_world) ∨
  (JsError "storage unavailable" = JsError "Invalid token format" ∧
   ∃ challenge w1 newToken,
     getChallenge "a" (with_faults [only_setAlarm_works] early_world)
       = (Returned (Some challenge), w1) ∧
     early_world = id w1 ∧
     r_token (sample_redeemChallenge (clock (id w1)) challenge [1]) = Some newToken ∧
     hashToken newToken = Threw (JsError "storage unavailable")).
Proof.
  apply (redeem_throws_only_outside_its_try sample_createChallenge sample_redeemChallenge id
           "a" [1] (JsError "storage unavailable")
           (with_faults [only_setAlarm_works] early_world) early_world).
  - discriminate.
  - vm_compute. reflexivity.
Defined.
